(** * bot.py: recipient queues, sender selection and the per-flow send loop

  A shallow embedding of the send path of [bot.py]: the queue-file helpers
  ([read_lines_unique], [append_unique_line], [move_line_to_end_atomic],
  [remove_username_from_file_atomic]), the sent-history ledger, the sender
  selector [choose_sender_index], [send_one_message] and the body of the
  loop of [_process_file_sends].

  Conventions.
  - A Python [str] is a [string]; a character is a code point below 256.
  - The file system is a finite map from paths to file contents; a path
    that is not in the map does not exist.
  - [time.time()] floats are rationals ([Q]); aware [datetime] values are
    integers counting microseconds, and so is a [timedelta].
  - Clock readings, random draws and the reply of the transport are
    inputs of the functions that consume them. *)

From Stdlib Require Import ZArith QArith Lqa Ascii.
From stdpp Require Import base gmap strings list.

(** ** Python string helpers *)

Module PyStr.

(** [str.isspace] on one character (code points below 256). *)
Definition is_space (c : ascii) : bool :=
  match c with
  | "009" | "010" | "011" | "012" | "013"
  | "028" | "029" | "030" | "031" | " "
  | "133" | "160" => true
  | _ => false
  end%char.

(** Line terminators recognised when a text file is iterated with
    universal newlines: LF and CR (a CR LF pair yields an empty piece,
    which the callers drop as blank). *)
Definition is_newline (c : ascii) : bool :=
  match c with
  | "010" | "013" => true
  | _ => false
  end%char.

#[global] Arguments is_space : simpl never.
#[global] Arguments is_newline : simpl never.

Definition LF : ascii := "010"%char.
Definition nl : string := String LF "".

Definition is_LF (c : ascii) : bool := bool_decide (c = LF).
Definition is_slash (c : ascii) : bool := bool_decide (c = "/"%char).

(** [s.lstrip(chars)] and [s.rstrip(chars)], the set of characters being
    given by its membership test. *)
Fixpoint lstrip_by (p : ascii → bool) (s : string) : string :=
  match s with
  | EmptyString => EmptyString
  | String c s' => if p c then lstrip_by p s' else s
  end.

Fixpoint rstrip_by (p : ascii → bool) (s : string) : string :=
  match s with
  | EmptyString => EmptyString
  | String c s' =>
      match rstrip_by p s' with
      | EmptyString => if p c then EmptyString else String c EmptyString
      | r => String c r
      end
  end.

Definition strip_by (p : ascii → bool) (s : string) : string :=
  rstrip_by p (lstrip_by p s).

(** [s.strip()] *)
Definition strip (s : string) : string := strip_by is_space s.

(** The pieces of a text between line terminators. *)
Fixpoint split_lines (s : string) : list string :=
  match s with
  | EmptyString => [EmptyString]
  | String c s' =>
      if is_newline c then EmptyString :: split_lines s'
      else match split_lines s' with
           | [] => [String c EmptyString]
           | l :: ls => String c l :: ls
           end
  end.

(** [[ln.strip() for ln in f if ln.strip()]] *)
Definition file_lines (content : string) : list string :=
  filter (λ l, l ≠ EmptyString) (strip <$> split_lines content).

(** [s.startswith(p)] *)
Definition startswith (p s : string) : bool := String.prefix p s.

(** [s.replace(pat, "")]: every non-overlapping occurrence of [pat],
    from the left, is removed. [skip] counts the characters of the
    occurrence being removed that are still to be dropped. *)
Fixpoint remove_all_from (pat : string) (skip : nat) (s : string) : string :=
  match s with
  | EmptyString => EmptyString
  | String c s' =>
      match skip with
      | S k => remove_all_from pat k s'
      | O =>
          if String.prefix pat s
          then remove_all_from pat (String.length pat - 1) s'
          else String c (remove_all_from pat 0 s')
      end
  end.

Definition remove_all (pat s : string) : string :=
  match pat with
  | EmptyString => s
  | _ => remove_all_from pat 0 s
  end.

(** The character class [[A-Za-z0-9_]]. *)
Definition is_word_char (c : ascii) : bool :=
  let n := nat_of_ascii c in
  (65 <=? n)%nat && (n <=? 90)%nat
  || (97 <=? n)%nat && (n <=? 122)%nat
  || (48 <=? n)%nat && (n <=? 57)%nat
  || (n =? 95)%nat.

Fixpoint all_chars (p : ascii → bool) (s : string) : bool :=
  match s with
  | EmptyString => true
  | String c s' => p c && all_chars p s'
  end.

(** A text without line terminator. *)
Definition single_line (s : string) : bool :=
  all_chars (λ c, negb (is_newline c)) s.

(** A string that does not begin with a character of the set [p]. *)
Definition head_kept (p : ascii → bool) (s : string) : Prop :=
  match s with
  | EmptyString => True
  | String c _ => p c = false
  end.

(** A line as [file_lines] returns it: not empty, already stripped, and
    free of line terminators. *)
Definition clean (l : string) : Prop :=
  l ≠ "" ∧ strip l = l ∧ single_line l = true.

#[global] Instance clean_dec (l : string) : Decision (clean l).
Proof. unfold clean. apply _. Defined.

End PyStr.

(** ** Queue files *)

Module Queue.
Import PyStr.

(** The loop of [read_lines_unique] (bot.py, lines 190-195): [seen] is the
    set, [out] the list. *)
Fixpoint unique_loop (lines : list string) (seen : gset string)
    (out : list string) : list string :=
  match lines with
  | [] => out
  | l :: rest =>
      if decide (l ∈ seen) then unique_loop rest seen out
      else unique_loop rest ({[l]} ∪ seen) (out ++ [l])
  end.

(** [read_lines_unique] (lines 185-196): a missing file reads as the empty
    list. *)
Definition read_lines_unique (fs : gmap string string) (path : string)
    : list string :=
  match fs !! path with
  | None => []
  | Some content => unique_loop (file_lines content) ∅ []
  end.

(** [append_unique_line] (lines 198-209): opening with mode [a+] creates a
    missing file; the line is compared with the stripped non-blank lines
    and written, followed by a line feed, at the end. *)
Definition append_unique_line (fs : gmap string string) (path line : string)
    : gmap string string * bool :=
  let content := default EmptyString (fs !! path) in
  let lines := file_lines content in
  if decide (line ∈ lines) then (<[path := content]> fs, false)
  else (<[path := content +:+ line +:+ nl]> fs, true).

(** What [atomic_write_lines] writes: each line without its trailing line
    feeds, followed by one line feed. *)
Definition join_lines (lines : list string) : string :=
  foldr (λ l acc, rstrip_by is_LF l +:+ nl +:+ acc) EmptyString lines.

(** [atomic_write_lines] (lines 162-167): the text goes to [path + ".tmp"],
    which then replaces [path]. *)
Definition atomic_write_lines (fs : gmap string string) (path : string)
    (lines : list string) : gmap string string :=
  let tmp := path +:+ ".tmp" in
  let data := join_lines lines in
  <[path := data]> (delete tmp (<[tmp := data]> fs)).

(** [remove_username_from_file_atomic] (lines 211-214) *)
Definition remove_username_from_file_atomic (fs : gmap string string)
    (path username : string) : gmap string string :=
  let lines := read_lines_unique fs path in
  let new := filter (λ l, l ≠ username) lines in
  atomic_write_lines fs path new.

(** The loop of [move_line_to_end_atomic] (lines 220-226). *)
Fixpoint move_loop (lines : list string) (line : string) (found : bool)
    (new : list string) : bool * list string :=
  match lines with
  | [] => (found, new)
  | l :: rest =>
      if negb found && bool_decide (l = line)
      then move_loop rest line true new
      else move_loop rest line found (new ++ [l])
  end.

(** [move_line_to_end_atomic] (lines 216-231) *)
Definition move_line_to_end_atomic (fs : gmap string string)
    (path line : string) : gmap string string * bool :=
  let lines := read_lines_unique fs path in
  match lines with
  | [] => (fs, false)
  | _ =>
      let '(found, new) := move_loop lines line false [] in
      if negb found then (fs, false)
      else (atomic_write_lines fs path (new ++ [line]), true)
  end.


(** Keeping the first occurrence of every element of a list, in order. *)
Fixpoint first_occurrences (l : list string) : list string :=
  match l with
  | [] => []
  | x :: xs => x :: filter (λ y, y ≠ x) (first_occurrences xs)
  end.


(** A text that is empty or ends with a line feed. *)
Definition terminated (content : string) : Prop :=
  content = EmptyString ∨ ∃ c0, content = c0 +:+ nl.

(** A string of white space only. *)
Definition blank (r : string) : Prop := all_chars is_space r = true.

#[global] Instance blank_dec (r : string) : Decision (blank r).
Proof. unfold blank. apply _. Defined.

(** The queue of a flow, as the dispatcher loads it. *)
Definition load (fs : gmap string string) (path : string) : list string :=
  read_lines_unique fs path.


End Queue.


(** ** Recipient normalisation and validation *)

Module Recipient.
Import PyStr.

Definition tme : string := "https://t.me/".

(** [re.fullmatch(r"[A-Za-z0-9_]{5,}", s)] *)
Definition is_raw_username (s : string) : bool :=
  all_chars is_word_char s && (5 <=? String.length s)%nat.

(** [normalize_recipient] (lines 98-122) *)
Definition normalize_recipient (s : string) : string :=
  let s := strip s in
  match s with
  | EmptyString => s
  | _ =>
      let s :=
        if startswith tme s
        then strip_by is_slash (strip (remove_all tme s))
        else s in
      if startswith "@" s then s
      else if is_raw_username s then "@" +:+ s
      else s
  end.

(** [is_valid_tg_username_recipient] (lines 775-782):
    [re.fullmatch(r"@[A-Za-z0-9_]{5,32}", s)] behind the two guards. *)
Definition is_valid_tg_username_recipient (s : string) : bool :=
  match s with
  | EmptyString => false
  | String c body =>
      if negb (startswith "@" s) then false
      else bool_decide (c = "@"%char) && all_chars is_word_char body
           && (5 <=? String.length body)%nat
           && (String.length body <=? 32)%nat
  end.

(** [s.lower()] on code points below 256: A-Z and the accented capitals
    of Latin-1 move up by 32. *)
Definition lower_char (c : ascii) : ascii :=
  let n := nat_of_ascii c in
  if (65 <=? n)%nat && (n <=? 90)%nat
     || (192 <=? n)%nat && (n <=? 222)%nat && negb (n =? 215)%nat
  then ascii_of_nat (n + 32) else c.

Fixpoint lower (s : string) : string :=
  match s with
  | EmptyString => EmptyString
  | String c s' => String (lower_char c) (lower s')
  end.

End Recipient.

(** ** Sent history *)

Module History.

(** The history dictionary is written with two shapes of key: the pairs
    [(username, message_key)] that [load_sent_history] builds and
    [within_history_window] looks up, and the bare lower-cased name that
    [send_one_message] stores. *)
Inductive hist_key :=
| PairKey (username message_key : string)
| NameKey (username : string).

(** Its values are [datetime] objects (from the ledger) or the float of
    [time.time()] (from [send_one_message]). *)
Inductive hist_val :=
| Stamp (dt : Z)
| Secs (ts : Q).

#[global] Instance hist_key_eq_dec : EqDecision hist_key.
Proof. solve_decision. Defined.

#[global] Instance hist_key_countable : Countable hist_key.
Proof.
  refine (inj_countable'
    (λ k, match k with
          | PairKey u m => inl (u, m)
          | NameKey u => inr u
          end)
    (λ x, match x with
          | inl (u, m) => PairKey u m
          | inr u => NameKey u
          end) _).
  intros []; reflexivity.
Defined.

(** A row of [logs/sent_history.csv], by what reading its three fields
    gives: the header text and rows that are too short or whose first
    field is no timestamp make the reader raise, and are skipped. *)
Inductive ledger_row :=
| HeaderRow
| Entry (ts : Z) (username message_key : string)
| BadRow.

Definition load_row (hist : gmap hist_key hist_val) (row : ledger_row)
    : gmap hist_key hist_val :=
  match row with
  | Entry ts uname mkey => <[PairKey uname mkey := Stamp ts]> hist
  | _ => hist
  end.

(** [load_sent_history] (lines 867-882): a missing file gives the empty
    map; the first row is consumed by [next(reader, None)]. *)
Definition load_sent_history (ledger : option (list ledger_row))
    : gmap hist_key hist_val :=
  match ledger with
  | None => ∅
  | Some rows => foldl load_row ∅ (tail rows)
  end.

(** [append_sent_history] (lines 884-891), the clock reading being [now]. *)
Definition append_sent_history (ledger : option (list ledger_row))
    (username message_key : string) (now : Z) : option (list ledger_row) :=
  match ledger with
  | None => Some [HeaderRow; Entry now username message_key]
  | Some rows => Some (rows ++ [Entry now username message_key])
  end.

(** Microseconds in [timedelta(days=1)]. *)
Definition day_us : Z := 86400 * 1000000.

(** [within_history_window] (lines 893-897); [now] is the reading of
    [utc_now()].  The answer is [None] when the subtraction
    [utc_now() - dt] raises, which is the case when [dt] is a non-zero
    float. *)
Definition within_history_window (hist : gmap hist_key hist_val)
    (username message_key : string) (days now : Z) : option bool :=
  match hist !! PairKey username message_key with
  | None => Some false
  | Some (Stamp dt) => Some (bool_decide (now - dt < days * day_us)%Z)
  | Some (Secs x) => if Qeq_bool x 0 then Some false else None
  end.

End History.

(** ** Sender selection *)

Module Selector.

(** What a call of [choose_sender_index] ends with: an index, Python's
    [None], or an [IndexError] out of a list subscript. *)
Inductive selection :=
| Picked (i : Z)
| Exhausted
| Raised.

Section Choose.
Variable sender_sessions : list string.
Variable disabled_until : gmap string Q.
Variable now_ts : Q.
Variable perma_blocked : gset string.

Definition is_available (sess : string) : bool :=
  if decide (sess ∈ perma_blocked) then false
  else Qle_bool (default 0%Q (disabled_until !! sess)) now_ts.

(** The subscript [sender_sessions[i]] for [0 <= i]. *)
Definition session_at (i : Z) : option string :=
  if (i <? 0)%Z then None else sender_sessions !! Z.to_nat i.

(** The loop of the [random] mode over the shuffled indices. *)
Fixpoint scan_order (order : list nat) : selection :=
  match order with
  | [] => Exhausted
  | i :: rest =>
      match sender_sessions !! i with
      | None => Raised
      | Some sess =>
          if is_available sess then Picked (Z.of_nat i)
          else scan_order rest
      end
  end.

(** The round-robin loop: [k] iterations are left. *)
Fixpoint scan_round (k : nat) (last_index : Z) : selection :=
  match k with
  | O => Exhausted
  | S k' =>
      let last_index := ((last_index + 1) mod Z.of_nat (length sender_sessions))%Z in
      match session_at last_index with
      | None => Raised
      | Some sess =>
          if is_available sess then Picked last_index
          else scan_round k' last_index
      end
  end.

(** [choose_sender_index] (lines 708-742); [order] is the outcome of
    [random.shuffle(list(range(n)))]. *)
Definition choose_sender_index (mode : string) (last_index : Z)
    (order : list nat) : selection :=
  let n := length sender_sessions in
  if (n =? 0)%nat then Exhausted
  else if bool_decide (mode = "single_account") then
    match session_at 0 with
    | None => Raised
    | Some sess => if is_available sess then Picked 0 else Exhausted
    end
  else if bool_decide (mode = "random") then scan_order order
  else scan_round n last_index.
(** The availability of the session at a position; there is none outside
    the list. *)
Definition available_at (i : Z) : bool :=
  match session_at i with
  | Some sess => is_available sess
  | None => false
  end.

(** [k] calls in a row, each fed the index the one before returned, as the
    dispatcher does with [last_idx_ref["last"] = idx]; a call that finds
    nobody leaves the cursor where it was. *)
Fixpoint select_run (mode : string) (order : list nat) (k : nat)
    (last_index : Z) : list selection :=
  match k with
  | O => []
  | S k' =>
      let r := choose_sender_index mode last_index order in
      r :: select_run mode order k'
             (match r with Picked i => i | _ => last_index end)
  end.
End Choose.

End Selector.

(** ** Sending one message and the loop body of a flow *)

Module Flow.
Import PyStr Queue Recipient History Selector.

(** How [client.send_message] ends, by the handler of [send_one_message]
    that takes it.  [FloodWait] carries the [seconds] attribute of the
    exception when it has one. *)
Inductive reply :=
| Delivered
| PeerFlood
| UserPrivacyRestricted
| BadRequest
| FloodWait (seconds : option Z)
| OtherError.

#[global] Instance reply_eq_dec : EqDecision reply.
Proof. solve_decision. Defined.

(** The state shared by every flow of [run_sender]: the files, the two
    CSV logs, the cooldown map, the rotation cursor
    [last_idx_ref["last"]], the in-memory history, and the calls made to
    the transport (session, recipient, reply), oldest first. *)
Record world := World {
  files : gmap string string;
  send_log : option (list (list string));
  ledger : option (list ledger_row);
  disabled_until : gmap string Q;
  last_idx : Z;
  sent_hist : gmap hist_key hist_val;
  outbox : list (string * string * reply)
}.

Definition with_files (w : world) (fs : gmap string string) : world :=
  World fs (send_log w) (ledger w) (disabled_until w) (last_idx w)
        (sent_hist w) (outbox w).
Definition with_send_log (w : world) (l : option (list (list string))) : world :=
  World (files w) l (ledger w) (disabled_until w) (last_idx w)
        (sent_hist w) (outbox w).
Definition with_ledger (w : world) (l : option (list ledger_row)) : world :=
  World (files w) (send_log w) l (disabled_until w) (last_idx w)
        (sent_hist w) (outbox w).
Definition with_disabled_until (w : world) (d : gmap string Q) : world :=
  World (files w) (send_log w) (ledger w) d (last_idx w)
        (sent_hist w) (outbox w).
Definition with_last_idx (w : world) (i : Z) : world :=
  World (files w) (send_log w) (ledger w) (disabled_until w) i
        (sent_hist w) (outbox w).
Definition with_sent_hist (w : world) (h : gmap hist_key hist_val) : world :=
  World (files w) (send_log w) (ledger w) (disabled_until w) (last_idx w)
        h (outbox w).
Definition with_outbox (w : world) (o : list (string * string * reply)) : world :=
  World (files w) (send_log w) (ledger w) (disabled_until w) (last_idx w)
        (sent_hist w) o.

Definition peer_flood_cooldown : Q := 6 * 3600.
Definition generic_error_cooldown : Q := 300.

(** [send_one_message] (lines 1257-1315).  [now_ts] is the reading of
    [time.time()], [jitter] the draw of [random.uniform(20, 40)], [answer]
    the reply of the transport if it is called.  [send_counter] is the
    dictionary the caller owns. *)
Definition send_one_message (w : world) (send_counter : gmap string Z)
    (session_path username : string) (now_ts jitter : Q) (answer : reply)
    : bool * world * gmap string Z :=
  let count := default 0%Z (send_counter !! session_path) in
  if (2 <=? count)%Z then
    (false,
     with_disabled_until w (<[session_path := (now_ts + jitter)%Q]> (disabled_until w)),
     send_counter)
  else
    let w := with_outbox w (outbox w ++ [(session_path, username, answer)]) in
    match answer with
    | Delivered =>
        (true,
         with_sent_hist w (<[NameKey (lower username) := Secs now_ts]> (sent_hist w)),
         <[session_path := (count + 1)%Z]> send_counter)
    | PeerFlood =>
        (false,
         with_disabled_until w
           (<[session_path := (now_ts + peer_flood_cooldown)%Q]> (disabled_until w)),
         send_counter)
    | UserPrivacyRestricted => (false, w, send_counter)
    | BadRequest => (false, w, send_counter)
    | FloodWait seconds =>
        let wait_s := default 60%Z seconds in
        (false,
         with_disabled_until w
           (<[session_path := (now_ts + inject_Z wait_s + 2)%Q]> (disabled_until w)),
         send_counter)
    | OtherError =>
        (false,
         with_disabled_until w
           (<[session_path := (now_ts + generic_error_cooldown)%Q]> (disabled_until w)),
         send_counter)
    end.

(** [append_send_log] (lines 1248-1255) *)
Definition log_header : list string :=
  ["timestamp"; "username"; "group"; "sender_session"; "result"; "error"].

Definition append_send_log (log : option (list (list string)))
    (row : list string) : option (list (list string)) :=
  match log with
  | None => Some [log_header; row]
  | Some rows => Some (rows ++ [row])
  end.

(** [message_key_for] (lines 694-696); [template_name] is
    [Path(template_path).name] when a template path is given. *)
Definition message_key_for (name : string) (template_name : option string)
    : string :=
  name +:+ ":" +:+ default "default" template_name.

Record config := Config {
  send_mode : string;
  sender_sessions : list string;
  cooldown_days : Z
}.

Record flow := FlowOf {
  file_path : string;
  flow_name : string;
  template_name : option string
}.

(** What one turn of the loop body reads from outside: the clocks, the
    shuffle, the jitter draw, the reply of the transport. *)
Record oracle := Oracle {
  wall_check : Z;
  mono_select : Q;
  shuffle : list nat;
  mono_send : Q;
  jitter : Q;
  answer : reply;
  log_stamp : string;
  wall_record : Z
}.

Definition requeue (w : world) (fl : flow) (username : string) : world :=
  with_files w (move_line_to_end_atomic (files w) (file_path fl) username).1.

Definition unqueue (w : world) (fl : flow) (username : string) : world :=
  with_files w (remove_username_from_file_atomic (files w) (file_path fl) username).

(** The end of the loop body (lines 1419-1428), once [send_one_message] has
    answered [ok]: a success is logged, unqueued and written to the ledger,
    anything else is requeued. *)
Definition settle (fl : flow) (o : oracle)
    (username uname session_path : string) (ok : bool) (w : world) : world :=
  if ok then
    let w := with_send_log w
      (append_send_log (send_log w)
         [log_stamp o; uname; flow_name fl; session_path; "OK"; ""]) in
    let w := unqueue w fl username in
    with_ledger w
      (append_sent_history (ledger w) uname
         (message_key_for (flow_name fl) (template_name fl)) (wall_record o))
  else requeue w fl username.

(** The body of [for username in list(usernames)] in
    [_process_file_sends] (lines 1354-1431), for one [username].  [None] stands for an
    exception that leaves the loop. *)
Definition process_recipient (cfg : config) (perma_blocked : gset string)
    (fl : flow) (o : oracle) (username : string)
    (w : world) (send_counter : gmap string Z)
    : option (world * gmap string Z) :=
  let message_key := message_key_for (flow_name fl) (template_name fl) in
  let uname := normalize_recipient username in
  if negb (is_valid_tg_username_recipient uname) then
    Some (unqueue w fl username, send_counter)
  else
    match within_history_window (sent_hist w) uname message_key
            (cooldown_days cfg) (wall_check o) with
    | None => None
    | Some true => Some (requeue w fl username, send_counter)
    | Some false =>
        match choose_sender_index (sender_sessions cfg) (disabled_until w)
                (mono_select o) perma_blocked (send_mode cfg) (last_idx w)
                (shuffle o) with
        | Raised => None
        | Exhausted => Some (requeue w fl username, send_counter)
        | Picked idx =>
            match session_at (sender_sessions cfg) idx with
            | None => None
            | Some session_path =>
                let w := with_last_idx w idx in
                let '(ok, w, send_counter) :=
                  send_one_message w send_counter session_path uname
                    (mono_send o) (jitter o) (answer o) in
                Some (settle fl o username uname session_path ok w,
                      send_counter)
            end
        end
    end.

(** A stretch of a flow run: the loop body applied to the recipients of
    a list, each with the oracle of its turn. *)
Fixpoint process_all (cfg : config) (perma_blocked : gset string)
    (fl : flow) (turns : list (string * oracle))
    (w : world) (send_counter : gmap string Z)
    : option (world * gmap string Z) :=
  match turns with
  | [] => Some (w, send_counter)
  | (username, o) :: rest =>
      match process_recipient cfg perma_blocked fl o username w send_counter with
      | None => None
      | Some (w, send_counter) =>
          process_all cfg perma_blocked fl rest w send_counter
      end
  end.

(** One turn of [while True] (lines 1347-1354): the queue is read once and
    the loop body runs on that snapshot; [os] gives the oracle of each
    position. *)
Definition process_pass (cfg : config) (perma_blocked : gset string)
    (fl : flow) (os : list oracle) (w : world) (send_counter : gmap string Z)
    : option (world * gmap string Z) :=
  let usernames := read_lines_unique (files w) (file_path fl) in
  process_all cfg perma_blocked fl (zip usernames os) w send_counter.

(** The loop body gets as far as calling [send_one_message] with the
    session [s]: the recipient is valid, is not within the history window,
    and the selector picked the position of [s]. *)
Definition reaches_send (cfg : config) (perma_blocked : gset string)
    (fl : flow) (o : oracle) (username : string) (w : world) (s : string)
    : Prop :=
  is_valid_tg_username_recipient (normalize_recipient username) = true
  ∧ within_history_window (sent_hist w) (normalize_recipient username)
      (message_key_for (flow_name fl) (template_name fl))
      (cooldown_days cfg) (wall_check o) = Some false
  ∧ ∃ idx,
      choose_sender_index (sender_sessions cfg) (disabled_until w)
        (mono_select o) perma_blocked (send_mode cfg) (last_idx w)
        (shuffle o) = Picked idx
      ∧ session_at (sender_sessions cfg) idx = Some s.

(** [send_counter.get(session_path, 0)] *)
Definition count_of (send_counter : gmap string Z) (s : string) : Z :=
  default 0%Z (send_counter !! s).

(** The cooldown that [send_one_message] gives the session after a failed
    call, in seconds; the two recipient-side failures give none. *)
Definition cooldown_of (a : reply) : option Q :=
  match a with
  | PeerFlood => Some peer_flood_cooldown
  | FloodWait seconds => Some (inject_Z (default 60%Z seconds) + 2)%Q
  | OtherError => Some generic_error_cooldown
  | Delivered | UserPrivacyRestricted | BadRequest => None
  end.

(** The number of calls of the transport that a session made and that
    were delivered. *)
Definition delivered_by (session : string)
    (calls : list (string * string * reply)) : nat :=
  length (filter (λ c, c.1.1 = session ∧ c.2 = Delivered) calls).

(** The counter of a flow run counts the deliveries of each session since
    the run began, and never exceeds two: [base] is what each session had
    delivered before. *)
Definition counted (base : string → nat) (w : world) (c : gmap string Z)
    : Prop :=
  ∀ s, (0 ≤ count_of c s ≤ 2)%Z
       ∧ delivered_by s (outbox w) = (base s + Z.to_nat (count_of c s))%nat.


(** C2 read to the letter: a turn of the loop body that called the
    transport appended a row to the send log. *)
Definition logs_every_attempt : Prop :=
  ∀ (cfg : config) (perma_blocked : gset string) (fl : flow) (o : oracle)
    (username : string) (w w' : world) (c c' : gmap string Z),
    process_recipient cfg perma_blocked fl o username w c = Some (w', c') →
    outbox w' ≠ outbox w →
    ∃ row, send_log w' = append_send_log (send_log w) row.

(** A small pool and queue to run the loop body on. *)
Definition demo_world : world :=
  World {[ "q" := "@alice_x" +:+ nl +:+ "@bobby" +:+ nl ]}
        None None ∅ (-1) ∅ [].
Definition demo_config : config := Config "round_robin" ["s1"; "s2"] 5.
Definition demo_flow : flow := FlowOf "q" "AUTO" None.
Definition demo_oracle (a : reply) : oracle :=
  Oracle 0 100 [] 100 30 a "2026-01-01T00:00:00+00:00" 0.

End Flow.

(** ** Start-up of the sender *)

Module Startup.
Import PyStr Queue.

(** [load_permanent_blocked] (lines 698-706): the stripped non-blank lines
    of the deny-list file, as a set; a missing file gives the empty set. *)
Definition load_permanent_blocked (fs : gmap string string) (path : string)
    : gset string :=
  match fs !! path with
  | None => ∅
  | Some content =>
      foldl (λ blocked s, {[s]} ∪ blocked) ∅ (file_lines content)
  end.

(** The keys of the dictionary [clients] that the loop of lines 1442-1448
    of [run_sender] fills, in the order of their insertion: a session that
    is configured twice keeps its first place. *)
Fixpoint client_keys (sessions : list string) (keys : list string)
    : list string :=
  match sessions with
  | [] => keys
  | sess :: rest =>
      client_keys rest (if decide (sess ∈ keys) then keys else keys ++ [sess])
  end.

(** The sender list with which [run_sender] goes on (lines 1435-1471):
    the sessions whose client started, [starts] telling which do; [None]
    when the function returns early, nothing being configured or nothing
    having started. *)
Definition start_sessions (configured : list string) (starts : string → bool)
    : option (list string) :=
  match configured with
  | [] => None
  | _ =>
      let alive := filter (λ s, starts s = true) (client_keys configured []) in
      match alive with
      | [] => None
      | _ => Some alive
      end
  end.

End Startup.

(** ** The ledger, read as a whole *)

Module Ledger.
Import History.

(** The timestamp of the last entry of the rows for a recipient and a
    message key. *)
Fixpoint last_entry (rows : list ledger_row) (u m : string) : option Z :=
  match rows with
  | [] => None
  | row :: rest =>
      match last_entry rest u m with
      | Some t => Some t
      | None =>
          match row with
          | Entry ts u' m' =>
              if decide (u' = u ∧ m' = m) then Some ts else None
          | _ => None
          end
      end
  end.


End Ledger.

(** ** Counting what a run did *)

Module Tally.
Import PyStr Queue History Selector Flow.

(** The rows of the send log whose result column holds ["OK"]. *)
Definition ok_rows (log : option (list (list string))) : nat :=
  length (filter (λ row, row !! 4%nat = Some "OK") (default [] log)).

Definition is_entry (row : ledger_row) : bool :=
  match row with
  | Entry _ _ _ => true
  | _ => false
  end.

(** The rows of the ledger that record a send. *)
Definition ledger_entries (ledger : option (list ledger_row)) : nat :=
  length (filter (λ row, is_entry row = true) (default [] ledger)).

(** The calls of the transport that were delivered. *)
Definition deliveries (calls : list (string * string * reply)) : nat :=
  length (filter (λ c, c.2 = Delivered) calls).

(** How the shared state can differ after turns of the loop body of a flow:
    the queue only loses or reorders entries, no file but the queue file
    and its temporary companion changes, the two logs and the list of
    calls only grow, by as many "OK" rows and ledger entries as there were
    deliveries, only configured sessions get a cooldown, the cursor is
    where it was or on a position of the sender list, and the history
    keeps what it holds for every pair. *)
Definition evolves (cfg : config) (fl : flow) (w w' : world) : Prop :=
  (∀ x, x ∈ load (files w') (file_path fl) → x ∈ load (files w) (file_path fl))
  ∧ (∀ p, p ≠ file_path fl → p ≠ file_path fl +:+ ".tmp" →
          files w' !! p = files w !! p)
  ∧ (∃ k, deliveries (outbox w') = (deliveries (outbox w) + k)%nat
          ∧ ok_rows (send_log w') = (ok_rows (send_log w) + k)%nat
          ∧ ledger_entries (ledger w') = (ledger_entries (ledger w) + k)%nat)
  ∧ default [] (send_log w) `prefix_of` default [] (send_log w')
  ∧ default [] (ledger w) `prefix_of` default [] (ledger w')
  ∧ outbox w `prefix_of` outbox w'
  ∧ (∀ s, s ∉ sender_sessions cfg →
          disabled_until w' !! s = disabled_until w !! s)
  ∧ (last_idx w' = last_idx w
     ∨ (0 ≤ last_idx w' < Z.of_nat (length (sender_sessions cfg)))%Z)
  ∧ (∀ u m, sent_hist w' !! PairKey u m = sent_hist w !! PairKey u m).

(** Three turns on the small pool: a delivery, a flood error, a
    delivery. *)
Definition demo_turns : list (string * oracle) :=
  [("@alice_x", demo_oracle Delivered); ("@bobby", demo_oracle PeerFlood);
   ("@bobby", demo_oracle Delivered)].

End Tally.

(** ** The listener's text helpers *)

Module Listener.

(** The class of [WORD_RE] (line 1057) on code points: the digits, the
    letters A-Z and a-z, and the block from U+0600 to U+06FF. *)
Definition word_re_class (c : N) : bool :=
  ((48 <=? c) && (c <=? 57) || (65 <=? c) && (c <=? 90)
   || (97 <=? c) && (c <=? 122) || (1536 <=? c) && (c <=? 1791))%N.

Section Text.
(** A text is a list of characters.  [lower] stands for [str.lower] and
    [strip] for [str.strip]; [word_char] is the class of [WORD_RE]. *)
Context {char : Type} `{Countable char}.
Variable lower : list char → list char.
Variable strip : list char → list char.
Variable word_char : char → bool.

(** [t.startswith(k)] *)
Fixpoint starts_with (k t : list char) : bool :=
  match k, t with
  | [], _ => true
  | _ :: _, [] => false
  | a :: k', b :: t' => bool_decide (a = b) && starts_with k' t'
  end.

(** [k in t] for two strings. *)
Fixpoint is_infix (k t : list char) : bool :=
  match t with
  | [] => starts_with k []
  | _ :: t' => starts_with k t || is_infix k t'
  end.

(** The inner loop of [match_manual_sections] (lines 800-806): [true] when
    it leaves by [break]. *)
Fixpoint scan_keywords (case_insensitive : bool) (t : list char)
    (kws : list (list char)) : bool :=
  match kws with
  | [] => false
  | kw :: rest =>
      match kw with
      | [] => scan_keywords case_insensitive t rest
      | _ =>
          let k := if case_insensitive then lower kw else kw in
          if bool_decide (k ≠ []) && is_infix k t then true
          else scan_keywords case_insensitive t rest
      end
  end.

(** The outer loop (lines 799-806), [matched] being the list it fills. *)
Fixpoint scan_sections (case_insensitive : bool) (t : list char)
    (sections : list (list char * list (list char)))
    (matched : list (list char)) : list (list char) :=
  match sections with
  | [] => matched
  | (sec_name, kws) :: rest =>
      scan_sections case_insensitive t rest
        (if scan_keywords case_insensitive t kws
         then matched ++ [sec_name] else matched)
  end.

(** The loop that drops repeated names (lines 807-812). *)
Fixpoint dedupe_loop (names : list (list char)) (seen : gset (list char))
    (out : list (list char)) : list (list char) :=
  match names with
  | [] => out
  | s :: rest =>
      if decide (s ∈ seen) then dedupe_loop rest seen out
      else dedupe_loop rest ({[s]} ∪ seen) (out ++ [s])
  end.

(** [match_manual_sections] (lines 794-813) *)
Definition match_manual_sections (case_insensitive : bool) (text : list char)
    (sections : list (list char * list (list char))) : list (list char) :=
  match text, sections with
  | [], _ => []
  | _, [] => []
  | _, _ =>
      let t := if case_insensitive then lower text else text in
      dedupe_loop (scan_sections case_insensitive t sections []) ∅ []
  end.

(** The loop of [get_sections_for_uni] (lines 998-1005): a section is kept
    when its stripped name is not empty and was not seen before. *)
Fixpoint merge_loop (secs : list (list char * list (list char)))
    (seen : gset (list char))
    (merged : list (list char * list (list char)))
    : list (list char * list (list char)) :=
  match secs with
  | [] => merged
  | (sec_name, kws) :: rest =>
      let key := strip sec_name in
      if bool_decide (key = []) || bool_decide (key ∈ seen)
      then merge_loop rest seen merged
      else merge_loop rest ({[key]} ∪ seen) (merged ++ [(sec_name, kws)])
  end.

(** [get_sections_for_uni] (lines 994-1006) on the cached sections;
    [global_tag] is the tag of the sections of every university. *)
Definition get_sections_for_uni (global_tag : list char)
    (sections_cache : gmap (list char) (list (list char * list (list char))))
    (uni_tag : list char) : list (list char * list (list char)) :=
  let uni_secs := default [] (sections_cache !! strip uni_tag) in
  let global_secs := default [] (sections_cache !! global_tag) in
  merge_loop (global_secs ++ uni_secs) ∅ [].

(** What a run of word characters that has ended contributes. *)
Definition flush (cur : list char) : list (list char) :=
  match cur with
  | [] => []
  | _ => [cur]
  end.

(** [WORD_RE.findall(t)]: the maximal runs of word characters, from the
    left; [cur] is the run being read. *)
Fixpoint scan_words (cur t : list char) : list (list char) :=
  match t with
  | [] => flush cur
  | c :: t' =>
      if word_char c then scan_words (cur ++ [c]) t'
      else flush cur ++ scan_words [] t'
  end.

(** [_tokenize_words] (lines 1059-1063) *)
Definition tokenize_words (kw_ci : bool) (text : list char)
    : list (list char) :=
  match text with
  | [] => []
  | _ => scan_words [] (if kw_ci then lower text else text)
  end.

(** [KW_SET] (line 1065) *)
Definition kw_set (kw_ci : bool) (kw_list : list (list char))
    : gset (list char) :=
  list_to_set ((λ k, if kw_ci then lower k else k) <$> kw_list).

(** [contains_keyword] (lines 1067-1071) *)
Definition contains_keyword (kw_ci : bool) (kw_list : list (list char))
    (text : list char) : bool :=
  match text with
  | [] => false
  | _ =>
      existsb (λ w, bool_decide (w ∈ kw_set kw_ci kw_list))
        (tokenize_words kw_ci text)
  end.

(** A word: a non-empty run of word characters. *)
Definition is_word (w : list char) : Prop :=
  w ≠ [] ∧ Forall (λ c, word_char c = true) w.

(** A place where a word may begin or end: the edge of the text or a
    character that is not a word character. *)
Definition word_edge (c : option char) : Prop :=
  match c with
  | None => True
  | Some c => word_char c = false
  end.

End Text.

(** [DEFAULT_EXACT_KEYWORDS] (line 961), as code points. *)
Definition default_exact_keywords : list (list N) :=
  [ [1605; 1588; 1585; 1608; 1593];
    [1582; 1589; 1608; 1589; 1609];
    [1582; 1589; 1608; 1589; 1610];
    [1582; 1589; 1608; 1589; 1610; 1610; 1606];
    [1582; 1589; 1608] ]%N.

End Listener.

(** * Properties *)

(** ** Strings *)

Module PyStrFacts.
Import PyStr.

Lemma sapp_nil_l (s : string) : "" +:+ s = s.
Proof. reflexivity. Qed.

Lemma sapp_cons (c : ascii) (s t : string) :
  String c s +:+ t = String c (s +:+ t).
Proof. reflexivity. Qed.

Lemma sapp_nil_r (s : string) : s +:+ "" = s.
Proof. induction s as [|c s IH]; [done|]. by rewrite sapp_cons, IH. Qed.

Lemma sapp_assoc (a b c : string) : (a +:+ b) +:+ c = a +:+ b +:+ c.
Proof. induction a as [|x a IH]; [done|]. by rewrite !sapp_cons, IH. Qed.

Lemma newline_is_space (c : ascii) : is_newline c = true → is_space c = true.
Proof. destruct c as [[] [] [] [] [] [] [] []]; done. Qed.

Lemma LF_is_newline (c : ascii) : is_LF c = true → is_newline c = true.
Proof. unfold is_LF. intros ->%bool_decide_eq_true. done. Qed.

(** *** Splitting into lines *)

Lemma split_lines_cons (s : string) : ∃ l ls, split_lines s = l :: ls.
Proof.
  induction s as [|c s (l & ls & IH)]; simpl; [by eauto|].
  destruct (is_newline c); [by eauto|]. rewrite IH. by eauto.
Qed.

Lemma split_lines_app (a b : string) (c : ascii) :
  is_newline c = true →
  split_lines (a +:+ String c b) = split_lines a ++ split_lines b.
Proof.
  intros Hc. induction a as [|x a IH].
  - rewrite sapp_nil_l. simpl. by rewrite Hc.
  - rewrite sapp_cons. simpl. rewrite IH.
    destruct (is_newline x); [done|].
    destruct (split_lines_cons a) as (l & ls & ->). done.
Qed.

Lemma split_lines_single (s : string) :
  single_line s = true → split_lines s = [s].
Proof.
  induction s as [|c s IH]; [done|]. simpl.
  intros [Hc Hs]%andb_prop. apply negb_true_iff in Hc. rewrite Hc.
  by rewrite (IH Hs).
Qed.

Lemma split_lines_pieces (s l : string) :
  l ∈ split_lines s → single_line l = true.
Proof.
  revert l. induction s as [|c s IH]; intros l; simpl.
  - by intros ->%list_elem_of_singleton.
  - destruct (is_newline c) eqn:Hc.
    + intros [->|Hl]%elem_of_cons; [done|by apply IH].
    + destruct (split_lines_cons s) as (l0 & ls & E). rewrite E in IH |- *.
      intros [->|Hl]%elem_of_cons.
      * unfold single_line. simpl. rewrite Hc. simpl. apply (IH l0). by left.
      * apply IH. by right.
Qed.

(** *** Stripping *)

Section Strip.
Variable p : ascii → bool.

Lemma lstrip_by_head (s : string) : head_kept p (lstrip_by p s).
Proof.
  induction s as [|c s IH]; simpl; [done|].
  destruct (p c) eqn:Hc; [done|]. simpl. done.
Qed.

Lemma lstrip_by_fixed (s : string) : head_kept p s → lstrip_by p s = s.
Proof. destruct s as [|c s]; simpl; [done|]. by intros ->. Qed.

Lemma rstrip_by_head (s : string) : head_kept p s → head_kept p (rstrip_by p s).
Proof.
  destruct s as [|c s]; simpl; [done|]. intros Hc.
  destruct (rstrip_by p s); [by rewrite Hc|done].
Qed.

Lemma rstrip_by_idemp (s : string) :
  rstrip_by p (rstrip_by p s) = rstrip_by p s.
Proof.
  induction s as [|c s IH]; simpl; [done|].
  destruct (rstrip_by p s) as [|d r] eqn:E.
  - destruct (p c) eqn:Hc; simpl; [done|]. by rewrite Hc.
  - change (rstrip_by p (String c (String d r)))
      with (match rstrip_by p (String d r) with
            | EmptyString => if p c then EmptyString else String c EmptyString
            | r' => String c r'
            end).
    by rewrite IH.
Qed.

Lemma strip_by_idemp (s : string) :
  strip_by p (strip_by p s) = strip_by p s.
Proof.
  unfold strip_by.
  rewrite (lstrip_by_fixed (rstrip_by p (lstrip_by p s))).
  - apply rstrip_by_idemp.
  - apply rstrip_by_head, lstrip_by_head.
Qed.

Lemma rstrip_by_none (s : string) :
  all_chars (λ c, negb (p c)) s = true → rstrip_by p s = s.
Proof.
  induction s as [|c s IH]; simpl; [done|].
  intros [Hc Hs]%andb_prop. apply negb_true_iff in Hc.
  rewrite (IH Hs), Hc. by destruct s.
Qed.

Lemma all_chars_lstrip_by (q : ascii → bool) (s : string) :
  all_chars q s = true → all_chars q (lstrip_by p s) = true.
Proof.
  induction s as [|c s IH]; simpl; [done|].
  intros H. destruct (andb_prop _ _ H) as [Hc Hs].
  destruct (p c); [by apply IH|done].
Qed.

Lemma all_chars_rstrip_by (q : ascii → bool) (s : string) :
  all_chars q s = true → all_chars q (rstrip_by p s) = true.
Proof.
  induction s as [|c s IH]; simpl; [done|].
  intros [Hc Hs]%andb_prop. specialize (IH Hs).
  destruct (rstrip_by p s) as [|d r].
  - destruct (p c); simpl; [done|]. by rewrite Hc.
  - simpl in *. by rewrite Hc, IH.
Qed.
End Strip.

Lemma all_chars_impl (p q : ascii → bool) (s : string) :
  (∀ c, p c = true → q c = true) →
  all_chars p s = true → all_chars q s = true.
Proof.
  intros Hpq. induction s as [|c s IH]; simpl; [done|].
  intros [Hc Hs]%andb_prop. by rewrite (Hpq _ Hc), (IH Hs).
Qed.

(** *** Lines a queue file can hold *)

Lemma strip_idemp (s : string) : strip (strip s) = strip s.
Proof. apply strip_by_idemp. Qed.

Lemma single_line_strip (s : string) :
  single_line s = true → single_line (strip s) = true.
Proof.
  intros H. unfold strip, strip_by, single_line.
  by apply all_chars_rstrip_by, all_chars_lstrip_by.
Qed.

Lemma file_lines_empty : file_lines "" = [].
Proof. reflexivity. Qed.

Lemma file_lines_app (a b : string) (c : ascii) :
  is_newline c = true →
  file_lines (a +:+ String c b) = file_lines a ++ file_lines b.
Proof.
  intros Hc. unfold file_lines.
  by rewrite (split_lines_app _ _ _ Hc), fmap_app, filter_app.
Qed.

Lemma file_lines_single (l : string) :
  single_line l = true →
  file_lines l = if decide (strip l = "") then [] else [strip l].
Proof.
  intros Hl. unfold file_lines. rewrite (split_lines_single _ Hl). simpl.
  rewrite filter_cons, filter_nil. by repeat case_decide.
Qed.

Lemma file_lines_clean (l : string) : clean l → file_lines l = [l].
Proof.
  intros (Hne & Hs & Hl). rewrite (file_lines_single _ Hl), Hs.
  by case_decide.
Qed.

Lemma file_lines_are_clean (content l : string) :
  l ∈ file_lines content → clean l.
Proof.
  unfold file_lines. intros [Hne Hin]%list_elem_of_filter.
  apply list_elem_of_fmap in Hin as (x & -> & Hx).
  split; [done|]. split; [apply strip_idemp|].
  by apply single_line_strip, (split_lines_pieces content).
Qed.

Lemma clean_rstrip_LF (l : string) : clean l → rstrip_by is_LF l = l.
Proof.
  intros (_ & _ & Hl). apply rstrip_by_none.
  revert Hl. apply all_chars_impl. intros c Hc.
  destruct (is_LF c) eqn:E; [|done].
  apply LF_is_newline in E. by rewrite E in Hc.
Qed.

End PyStrFacts.

(** ** Queue files *)

Module QueueFacts.
Import PyStr Queue PyStrFacts.

Lemma first_occurrences_elem (l : list string) (x : string) :
  x ∈ first_occurrences l ↔ x ∈ l.
Proof.
  induction l as [|y l IH]; simpl; [done|].
  rewrite !elem_of_cons, list_elem_of_filter, IH.
  destruct (decide (x = y)); tauto.
Qed.

Lemma first_occurrences_NoDup (l : list string) : NoDup (first_occurrences l).
Proof.
  induction l as [|y l IH]; simpl; [constructor|].
  apply NoDup_cons. split.
  - rewrite list_elem_of_filter. tauto.
  - by apply NoDup_filter.
Qed.

Lemma filter_always {A} (P : A → Prop) `{∀ x, Decision (P x)} (l : list A) :
  (∀ x, x ∈ l → P x) → filter P l = l.
Proof.
  induction l as [|y l IH]; [done|]. intros HP.
  rewrite filter_cons_True by (apply HP; by left).
  rewrite IH; [done|]. intros x Hx. apply HP. by right.
Qed.


Lemma filter_ne_absent (l : list string) (x : string) :
  x ∉ l → filter (λ y, y ≠ x) l = l.
Proof. intros Hx. apply filter_always. by intros y Hy ->. Qed.

Lemma first_occurrences_id (l : list string) :
  NoDup l → first_occurrences l = l.
Proof.
  induction 1 as [|x l Hx Hl IH]; simpl; [done|].
  by rewrite IH, filter_ne_absent.
Qed.

Lemma first_occurrences_app (l k : list string) :
  first_occurrences (l ++ k) =
  first_occurrences l ++ filter (λ y, y ∉ l) (first_occurrences k).
Proof.
  induction l as [|x l IH]; simpl.
  - rewrite filter_always; [done|]. intros y _. apply not_elem_of_nil.
  - f_equal. rewrite IH, filter_app. f_equal.
    rewrite list_filter_filter. apply list_filter_iff.
    intros y. simpl. rewrite not_elem_of_cons. tauto.
Qed.

Lemma unique_loop_spec (lines : list string) (seen : gset string)
    (out : list string) :
  unique_loop lines seen out =
  out ++ filter (λ x, x ∉ seen) (first_occurrences lines).
Proof.
  revert seen out. induction lines as [|l rest IH]; intros seen out; simpl.
  - by rewrite filter_nil, app_nil_r.
  - case_decide as Hl.
    + rewrite IH. f_equal. rewrite filter_cons_False by tauto.
      rewrite list_filter_filter. apply list_filter_iff.
      intros x. simpl. split; [|tauto]. intros Hx. split; [done|].
      by intros ->.
    + rewrite IH, <- app_assoc. simpl. f_equal.
      rewrite filter_cons_True by done. f_equal.
      rewrite list_filter_filter. apply list_filter_iff.
      intros x. simpl. rewrite not_elem_of_union, not_elem_of_singleton. tauto.
Qed.

Lemma read_lines_unique_content (fs : gmap string string) (path content : string) :
  fs !! path = Some content →
  read_lines_unique fs path = first_occurrences (file_lines content).
Proof.
  intros H. unfold read_lines_unique. rewrite H, unique_loop_spec. simpl.
  rewrite filter_always; [done|]. intros y _. apply not_elem_of_empty.
Qed.

Lemma read_lines_unique_missing (fs : gmap string string) (path : string) :
  fs !! path = None → read_lines_unique fs path = [].
Proof. intros H. unfold read_lines_unique. by rewrite H. Qed.

Lemma read_lines_unique_NoDup (fs : gmap string string) (path : string) :
  NoDup (read_lines_unique fs path).
Proof.
  destruct (fs !! path) as [content|] eqn:E.
  - rewrite (read_lines_unique_content _ _ _ E). apply first_occurrences_NoDup.
  - rewrite (read_lines_unique_missing _ _ E). constructor.
Qed.

Lemma read_lines_unique_clean (fs : gmap string string) (path l : string) :
  l ∈ read_lines_unique fs path → clean l.
Proof.
  destruct (fs !! path) as [content|] eqn:E.
  - rewrite (read_lines_unique_content _ _ _ E), first_occurrences_elem.
    apply file_lines_are_clean.
  - rewrite (read_lines_unique_missing _ _ E). by intros ?%elem_of_nil.
Qed.

Lemma read_lines_unique_elem (fs : gmap string string) (path l : string) :
  l ∈ read_lines_unique fs path ↔
  l ∈ file_lines (default "" (fs !! path)).
Proof.
  destruct (fs !! path) as [content|] eqn:E; simpl.
  - by rewrite (read_lines_unique_content _ _ _ E), first_occurrences_elem.
  - by rewrite (read_lines_unique_missing _ _ E), file_lines_empty.
Qed.

(** *** Writing a queue and reading it back *)

Lemma file_lines_join (ls : list string) :
  Forall clean ls → file_lines (join_lines ls) = ls.
Proof.
  induction 1 as [|l ls Hl Hls IH]; simpl; [done|].
  rewrite (clean_rstrip_LF _ Hl). unfold nl. rewrite sapp_cons, sapp_nil_l.
  rewrite file_lines_app by done.
  by rewrite (file_lines_clean _ Hl), IH.
Qed.

Lemma atomic_write_lines_lookup (fs : gmap string string) (path : string)
    (ls : list string) :
  atomic_write_lines fs path ls !! path = Some (join_lines ls).
Proof. unfold atomic_write_lines. apply lookup_insert_eq. Qed.

Lemma read_after_write (fs : gmap string string) (path : string)
    (ls : list string) :
  Forall clean ls → NoDup ls →
  read_lines_unique (atomic_write_lines fs path ls) path = ls.
Proof.
  intros Hc Hn.
  rewrite (read_lines_unique_content _ _ _ (atomic_write_lines_lookup _ _ _)).
  by rewrite file_lines_join, first_occurrences_id.
Qed.

(** *** Moving a line to the end *)

Lemma move_loop_found (lines new : list string) (line : string) :
  move_loop lines line true new = (true, new ++ lines).
Proof.
  revert new. induction lines as [|l rest IH]; intros new; simpl.
  - by rewrite app_nil_r.
  - by rewrite IH, <- app_assoc.
Qed.

Lemma move_loop_absent (lines new : list string) (line : string) :
  line ∉ lines → move_loop lines line false new = (false, new ++ lines).
Proof.
  revert new. induction lines as [|l rest IH]; intros new; simpl.
  - by rewrite app_nil_r.
  - intros [Hne Hrest]%not_elem_of_cons.
    rewrite bool_decide_eq_false_2 by done.
    by rewrite (IH _ Hrest), <- app_assoc.
Qed.

Lemma move_loop_first (pre post new : list string) (line : string) :
  line ∉ pre →
  move_loop (pre ++ line :: post) line false new = (true, new ++ pre ++ post).
Proof.
  revert new. induction pre as [|l pre IH]; intros new; simpl.
  - intros _. rewrite bool_decide_eq_true_2 by done. apply move_loop_found.
  - intros [Hne Hpre]%not_elem_of_cons.
    rewrite bool_decide_eq_false_2 by done.
    by rewrite (IH _ Hpre), <- app_assoc.
Qed.

Lemma move_line_to_end_atomic_absent (fs : gmap string string) (path r : string) :
  r ∉ read_lines_unique fs path →
  move_line_to_end_atomic fs path r = (fs, false).
Proof.
  intros Hr. unfold move_line_to_end_atomic.
  destruct (read_lines_unique fs path) as [|l ls]; [done|].
  by rewrite (move_loop_absent _ _ _ Hr).
Qed.

Lemma move_line_to_end_atomic_present (fs : gmap string string)
    (path r : string) (pre post : list string) :
  read_lines_unique fs path = pre ++ r :: post → r ∉ pre →
  move_line_to_end_atomic fs path r =
  (atomic_write_lines fs path (pre ++ post ++ [r]), true).
Proof.
  intros E Hr. unfold move_line_to_end_atomic. rewrite E.
  rewrite (move_loop_first _ _ _ _ Hr). simpl.
  rewrite <- app_assoc. by destruct pre.
Qed.

Lemma moved_queue (fs : gmap string string) (path r : string)
    (pre post : list string) :
  read_lines_unique fs path = pre ++ r :: post → r ∉ pre →
  read_lines_unique (move_line_to_end_atomic fs path r).1 path =
  pre ++ post ++ [r].
Proof.
  intros E Hr. rewrite (move_line_to_end_atomic_present _ _ _ _ _ E Hr). simpl.
  assert (pre ++ post ++ [r] ≡ₚ pre ++ r :: post) as HP.
  { by rewrite (Permutation_app_comm post [r]). }
  apply read_after_write.
  - rewrite HP, <- E. apply Forall_forall. intros l.
    apply read_lines_unique_clean.
  - rewrite HP, <- E. apply read_lines_unique_NoDup.
Qed.

(** *** Appending *)

Lemma read_lines_unique_default (fs : gmap string string) (path : string) :
  read_lines_unique fs path =
  first_occurrences (file_lines (default "" (fs !! path))).
Proof.
  destruct (fs !! path) as [content|] eqn:E; simpl.
  - by apply read_lines_unique_content.
  - by rewrite (read_lines_unique_missing _ _ E).
Qed.

Lemma append_unique_line_answer (fs : gmap string string) (path r : string) :
  (append_unique_line fs path r).2 = bool_decide (r ∉ read_lines_unique fs path).
Proof.
  unfold append_unique_line.
  case_decide as Hr; simpl; symmetry.
  - apply bool_decide_eq_false_2. rewrite read_lines_unique_elem. tauto.
  - apply bool_decide_eq_true_2. by rewrite read_lines_unique_elem.
Qed.

Lemma append_unique_line_content (fs : gmap string string) (path r : string) :
  default "" ((append_unique_line fs path r).1 !! path) =
  let content := default "" (fs !! path) in
  if decide (r ∈ file_lines content) then content else content +:+ r +:+ nl.
Proof.
  unfold append_unique_line. simpl.
  case_decide; simpl; by rewrite lookup_insert_eq.
Qed.





Lemma file_lines_append (content r : string) :
  terminated content →
  file_lines (content +:+ r +:+ nl) = file_lines content ++ file_lines r.
Proof.
  assert (∀ s, file_lines (s +:+ nl) = file_lines s) as Hnl.
  { intros s. unfold nl. rewrite file_lines_app by done.
    by rewrite file_lines_empty, app_nil_r. }
  intros [->|[c0 ->]].
  - by rewrite sapp_nil_l, Hnl.
  - rewrite Hnl, sapp_assoc. unfold nl at 1. rewrite sapp_cons, sapp_nil_l.
    rewrite file_lines_app by done. by rewrite Hnl.
Qed.



End QueueFacts.

(** ** Sender selection *)

Module SelectorFacts.
Import Selector.

Section Facts.
Variable sender_sessions : list string.
Variable disabled_until : gmap string Q.
Variable now_ts : Q.
Variable perma_blocked : gset string.

Abbreviation n := (Z.of_nat (length sender_sessions)).
Abbreviation available := (is_available disabled_until now_ts perma_blocked).
Abbreviation avail_at :=
  (available_at sender_sessions disabled_until now_ts perma_blocked).

Lemma is_available_spec (sess : string) :
  available sess = true ↔
  (sess ∉ perma_blocked) ∧ (default 0 (disabled_until !! sess) <= now_ts)%Q.
Proof.
  unfold is_available. case_decide as Hb.
  - split; [done|]. by intros [? _].
  - rewrite Qle_bool_iff. tauto.
Qed.

Lemma session_at_in_range (i : Z) :
  (0 ≤ i < n)%Z → ∃ sess, session_at sender_sessions i = Some sess.
Proof.
  intros Hi. unfold session_at.
  destruct (Z.ltb_spec i 0) as [|_]; [lia|].
  apply lookup_lt_is_Some. lia.
Qed.

Lemma session_at_Some (i : Z) (sess : string) :
  session_at sender_sessions i = Some sess →
  (0 ≤ i < n)%Z ∧ sess ∈ sender_sessions.
Proof.
  unfold session_at. destruct (Z.ltb_spec i 0) as [|Hi]; [done|].
  intros H. split.
  - apply lookup_lt_Some in H. lia.
  - by apply list_elem_of_lookup_2 in H.
Qed.

Lemma available_at_in_range (i : Z) :
  avail_at i = true →
  (0 ≤ i < n)%Z
  ∧ ∃ sess, session_at sender_sessions i = Some sess ∧ available sess = true.
Proof.
  unfold available_at.
  destruct (session_at sender_sessions i) as [sess|] eqn:E; [|done].
  intros H. split; [by apply (session_at_Some _ sess)|by eauto].
Qed.

(** The round-robin scan returns the first available position in the
    cyclic order that starts just after the cursor. *)
Lemma scan_round_spec (k : nat) (last_index : Z) :
  (0 < n)%Z →
  match scan_round sender_sessions disabled_until now_ts perma_blocked
          k last_index with
  | Picked i =>
      ∃ j, (1 ≤ j ≤ Z.of_nat k)%Z ∧ i = ((last_index + j) mod n)%Z
           ∧ avail_at i = true
           ∧ ∀ j', (1 ≤ j' < j)%Z → avail_at ((last_index + j') mod n)%Z = false
  | Exhausted =>
      ∀ j, (1 ≤ j ≤ Z.of_nat k)%Z → avail_at ((last_index + j) mod n)%Z = false
  | Raised => False
  end.
Proof.
  intros Hn. revert last_index.
  induction k as [|k IH]; intros last_index.
  - simpl. intros j Hj. lia.
  - cbn [scan_round].
    set (next := ((last_index + 1) mod n)%Z).
    assert (0 ≤ next < n)%Z as Hnext by (apply Z.mod_pos_bound; lia).
    destruct (session_at_in_range next Hnext) as [sess Hsess].
    rewrite Hsess.
    assert (∀ j, ((next + j) mod n = (last_index + (1 + j)) mod n)%Z) as Hshift.
    { intros j. unfold next. rewrite Z.add_mod_idemp_l by lia.
      f_equal. lia. }
    destruct (available sess) eqn:Hav.
    + exists 1%Z. repeat split; [lia|lia| |intros j' Hj'; lia].
      unfold available_at. fold next. by rewrite Hsess.
    + specialize (IH next).
      destruct (scan_round _ _ _ _ k next) as [i| |].
      * destruct IH as (j & Hj & -> & Hi & Hmin).
        exists (1 + j)%Z. repeat split; [lia|lia|apply Hshift| |].
        { exact Hi. }
        intros j' Hj'. destruct (decide (j' = 1%Z)) as [->|Hne].
        -- fold next. unfold available_at. by rewrite Hsess.
        -- replace j' with (1 + (j' - 1))%Z by lia. rewrite <- Hshift.
           apply Hmin. lia.
      * intros j Hj. destruct (decide (j = 1%Z)) as [->|Hne].
        -- fold next. unfold available_at. by rewrite Hsess.
        -- replace j with (1 + (j - 1))%Z by lia. rewrite <- Hshift.
           apply IH. lia.
      * done.
Qed.

(** Every position is met within one turn after any cursor. *)
Lemma position_after (last_index i : Z) :
  (0 ≤ i < n)%Z →
  ∃ j, (1 ≤ j ≤ n)%Z ∧ ((last_index + j) mod n = i)%Z.
Proof.
  intros Hi.
  set (d := ((i - last_index) mod n)%Z).
  assert (0 ≤ d < n)%Z as Hd by (apply Z.mod_pos_bound; lia).
  assert (((last_index + d) mod n)%Z = i) as Hmod.
  { unfold d. rewrite Z.add_mod_idemp_r by lia.
    replace (last_index + (i - last_index))%Z with i by lia.
    apply Z.mod_small. lia. }
  destruct (decide (d = 0%Z)) as [Hz|Hnz].
  - exists n. split; [lia|]. rewrite <- Hmod, Hz, Z.add_0_r.
    rewrite <- Z.add_mod_idemp_r, Z.mod_same, Z.add_0_r by lia. done.
  - exists d. split; [lia|done].
Qed.

Lemma scan_order_spec (order : list nat) :
  Forall (λ i, (i < length sender_sessions)%nat) order →
  match scan_order sender_sessions disabled_until now_ts perma_blocked order with
  | Picked i => avail_at i = true ∧ ∃ k, i = Z.of_nat k ∧ k ∈ order
  | Exhausted => ∀ k, k ∈ order → avail_at (Z.of_nat k) = false
  | Raised => False
  end.
Proof.
  induction 1 as [|i order Hi Horder IH]; simpl.
  - intros k Hk. by apply elem_of_nil in Hk.
  - destruct (lookup_lt_is_Some_2 sender_sessions i Hi) as [sess Hsess].
    rewrite Hsess.
    assert (session_at sender_sessions (Z.of_nat i) = Some sess) as Hat.
    { unfold session_at. destruct (Z.ltb_spec (Z.of_nat i) 0); [lia|].
      by rewrite Nat2Z.id. }
    destruct (available sess) eqn:Hav.
    + split; [|exists i; split; [done|by left]].
      unfold available_at. by rewrite Hat.
    + destruct (scan_order _ _ _ _ order) as [j| |]; [| |done].
      * destruct IH as (Hj & k & -> & Hk). split; [done|].
        exists k. split; [done|by right].
      * intros k [->|Hk]%elem_of_cons; [|by apply IH].
        unfold available_at. by rewrite Hat.
Qed.

End Facts.
End SelectorFacts.

(** * The claims *)

Import PyStr Queue Recipient History Selector Flow.
Import PyStrFacts QueueFacts.

(** ** Recipients, on samples *)

Example normalize_samples :
  normalize_recipient "  https://t.me/alice_x/ " = "@alice_x"
  ∧ normalize_recipient "alice" = "@alice"
  ∧ normalize_recipient "not-a-name!" = "not-a-name!"
  ∧ normalize_recipient "@bob" = "@bob".
Proof. vm_compute. repeat split; reflexivity. Qed.

Example valid_samples :
  is_valid_tg_username_recipient "@alice" = true
  ∧ is_valid_tg_username_recipient "not-a-name!" = false
  ∧ is_valid_tg_username_recipient "@bob" = false
  ∧ is_valid_tg_username_recipient "@abcdefghijklmnopqrstuvwxyz0123456" = false.
Proof. vm_compute. repeat split; reflexivity. Qed.

(** ** C7: the dedup contract of the queue *)







(** ** C8: moving a recipient to the end of the queue *)

(** C8.  [move_line_to_end_atomic(path, r)] answers [True] exactly when [r]
    is in the queue, and then the first occurrence of [r] has moved to the
    end; when [r] is absent it answers [False] and the files are unchanged.
    The other entries keep their relative order, a second call leaves the
    queue as the first one made it, and on the queue [a, b, c] moving [b]
    gives [a, c, b], and again [a, c, b]. *)
Theorem move_to_end_contract (fs : gmap string string) (path r : string) :
  let fs1 := (move_line_to_end_atomic fs path r).1 in
  let fs2 := (move_line_to_end_atomic fs1 path r).1 in
  ((move_line_to_end_atomic fs path r).2 = true ↔ r ∈ load fs path)
  ∧ (r ∉ load fs path → fs1 = fs)
  ∧ (∀ pre post, load fs path = pre ++ r :: post → r ∉ pre →
       load fs1 path = pre ++ post ++ [r])
  ∧ filter (λ l, l ≠ r) (load fs1 path) = filter (λ l, l ≠ r) (load fs path)
  ∧ load fs2 path = load fs1 path
  ∧ (∀ a c, load fs path = [a; r; c] →
       load fs1 path = [a; c; r] ∧ load fs2 path = [a; c; r]).
Proof.
  intros fs1 fs2. subst fs1 fs2. unfold load.
  assert (∀ f pre post, read_lines_unique f path = pre ++ r :: post →
            (r ∉ pre) ∧ (r ∉ post)) as Hnodup.
  { intros f pre post E. pose proof (read_lines_unique_NoDup f path) as Hn.
    rewrite E in Hn. apply NoDup_app in Hn as (_ & Hpre & Hpost).
    apply NoDup_cons in Hpost as [Hpost _]. split; [|done].
    intros Hin. apply (Hpre _ Hin). by left. }
  assert (∀ f, r ∈ read_lines_unique f path →
            read_lines_unique (move_line_to_end_atomic
              (move_line_to_end_atomic f path r).1 path r).1 path =
            read_lines_unique (move_line_to_end_atomic f path r).1 path)
    as Hidem.
  { intros f Hin. apply list_elem_of_split in Hin as (pre & post & E).
    destruct (Hnodup _ _ _ E) as [Hpre Hpost].
    pose proof (moved_queue _ _ _ _ _ E Hpre) as E1.
    rewrite (moved_queue _ path r (pre ++ post) []).
    - by rewrite E1, <- !app_assoc.
    - by rewrite E1, app_assoc.
    - by apply not_elem_of_app. }
  destruct (decide (r ∈ read_lines_unique fs path)) as [Hin|Hout].
  - pose proof Hin as Hin'.
    apply list_elem_of_split in Hin' as (pre0 & post0 & E0).
    destruct (Hnodup _ _ _ E0) as [Hpre0 Hpost0].
    pose proof (moved_queue _ _ _ _ _ E0 Hpre0) as E1.
    split; [|split; [|split; [|split; [|split]]]].
    + by rewrite (move_line_to_end_atomic_present _ _ _ _ _ E0 Hpre0).
    + done.
    + intros pre post E Hpre. by apply moved_queue.
    + rewrite E1, E0, !filter_app, filter_cons_False by tauto.
      rewrite (filter_cons_False _ r) by tauto.
      by rewrite filter_nil, app_nil_r.
    + by apply Hidem.
    + intros a c H. destruct (Hnodup _ [a] [c] H) as [Ha _].
      rewrite (Hidem _ Hin). split; by apply (moved_queue fs path r [a] [c]).
  - rewrite !(move_line_to_end_atomic_absent _ _ _ Hout). simpl.
    rewrite !(move_line_to_end_atomic_absent _ _ _ Hout). simpl.
    split; [|split; [|split; [|split; [|split]]]]; try done.
    + intros pre post E. exfalso. apply Hout. rewrite E.
      apply elem_of_app. right. by left.
    + intros a c H. exfalso. apply Hout. rewrite H. right. by left.
Qed.

Example move_to_end_abc :
  let fs := {[ "q" := "a" +:+ nl +:+ "b" +:+ nl +:+ "c" +:+ nl ]} in
  let fs1 := (move_line_to_end_atomic fs "q" "b").1 in
  let fs2 := (move_line_to_end_atomic fs1 "q" "b").1 in
  load fs "q" = ["a"; "b"; "c"]
  ∧ load fs1 "q" = ["a"; "c"; "b"]
  ∧ load fs2 "q" = ["a"; "c"; "b"]
  ∧ move_line_to_end_atomic fs "q" "zed" = (fs, false).
Proof. vm_compute. repeat split; reflexivity. Qed.

(** ** C10: what the selector returns *)

Import SelectorFacts.

(** C10.  Whatever the mode string, the session list, the cooldown map,
    the deny-list and the time, and whatever order the shuffle produced,
    [choose_sender_index] does not raise; an index it returns is a position
    of the session list whose session is not in the deny-list and whose
    cooldown-until entry (0 when missing) is not after the current time;
    and it returns [None] when no session is available. *)
Theorem chosen_sender_is_available (mode : string)
    (sender_sessions : list string) (last_index : Z)
    (disabled_until : gmap string Q) (now_ts : Q)
    (perma_blocked : gset string) (order : list nat) :
  order ≡ₚ seq 0 (length sender_sessions) →
  let r := choose_sender_index sender_sessions disabled_until now_ts
             perma_blocked mode last_index order in
  r ≠ Raised
  ∧ (∀ i, r = Picked i →
       (0 ≤ i < Z.of_nat (length sender_sessions))%Z
       ∧ ∃ sess, sender_sessions !! Z.to_nat i = Some sess
                 ∧ (sess ∉ perma_blocked)
                 ∧ (default 0 (disabled_until !! sess) <= now_ts)%Q)
  ∧ ((∀ sess, sess ∈ sender_sessions →
        is_available disabled_until now_ts perma_blocked sess = false) →
     r = Exhausted).
Proof.
  intros Horder r.
  assert (Forall (λ i, (i < length sender_sessions)%nat) order) as Hrange.
  { rewrite Horder. apply Forall_seq. intros j Hj. lia. }
  assert (r ≠ Raised
          ∧ ∀ i, r = Picked i →
              available_at sender_sessions disabled_until now_ts
                perma_blocked i = true) as [Hraise Hpick].
  { subst r. unfold choose_sender_index.
    destruct (Nat.eqb_spec (length sender_sessions) 0) as [|Hn]; [done|].
    case_bool_decide as Hsingle; [|case_bool_decide as Hrandom].
    - destruct (session_at_in_range sender_sessions 0) as [sess Hs]; [lia|].
      rewrite Hs. destruct (is_available _ _ _ sess) eqn:Hav; [|done].
      split; [done|]. intros i [= <-]. unfold available_at. by rewrite Hs.
    - pose proof (scan_order_spec sender_sessions disabled_until now_ts
                    perma_blocked order Hrange) as H.
      destruct (scan_order _ _ _ _ order); [|done|done].
      split; [done|]. intros j [= <-]. apply H.
    - pose proof (scan_round_spec sender_sessions disabled_until now_ts
                    perma_blocked (length sender_sessions) last_index) as H.
      destruct (scan_round _ _ _ _ _ _); [|done|exfalso; apply H; lia].
      split; [done|]. intros j [= <-].
      destruct H as (j & _ & _ & Hav & _); [lia|done]. }
  split; [done|]. split.
  - intros i Hi. apply Hpick, available_at_in_range in Hi as (Hi & sess & Hs & Hav).
    split; [done|]. exists sess. apply is_available_spec in Hav.
    split; [|done]. unfold session_at in Hs.
    by destruct (Z.ltb_spec i 0).
  - intros Hnone. destruct r as [i| |] eqn:E; [|done|done].
    specialize (Hpick i eq_refl).
    apply available_at_in_range in Hpick as (_ & sess & Hs & Hav).
    apply session_at_Some in Hs as [_ Hin]. by rewrite (Hnone _ Hin) in Hav.
Qed.

Lemma chosen_sender_is_available_witness :
  [2; 0; 1]%nat ≡ₚ seq 0 (length ["s0"; "s1"; "s2"])
  ∧ choose_sender_index ["s0"; "s1"; "s2"] {[ "s2" := 50%Q ]} 10%Q {[ "s0" ]}
      "random" 0 [2; 0; 1]%nat ≠ Raised.
Proof.
  assert ([2; 0; 1]%nat ≡ₚ seq 0 (length ["s0"; "s1"; "s2"])) as H.
  { simpl. apply (Permutation_cons_append [0; 1]%nat 2%nat). }
  split; [exact H|].
  exact (proj1 (chosen_sender_is_available "random" ["s0"; "s1"; "s2"] 0
                  {[ "s2" := 50%Q ]} 10%Q {[ "s0" ]} [2; 0; 1]%nat H)).
Defined.

Example choose_random_skips_unavailable :
  choose_sender_index ["s0"; "s1"; "s2"] {[ "s2" := 50%Q ]} 10%Q {[ "s0" ]}
    "random" 0 [2; 0; 1]%nat = Picked 1.
Proof. vm_compute. reflexivity. Qed.

(** ** C6: round-robin rotation *)

Lemma shift_mod_inj (n a j1 j2 : Z) :
  (0 < n)%Z → (0 ≤ j1 < n)%Z → (0 ≤ j2 < n)%Z →
  ((a + j1) mod n = (a + j2) mod n)%Z → j1 = j2.
Proof.
  intros Hn H1 H2 E.
  assert (((j1 - j2) mod n)%Z = 0%Z) as Hd.
  { replace (j1 - j2)%Z with ((a + j1) - (a + j2))%Z by lia.
    rewrite Zminus_mod, E, Z.sub_diag. by apply Z.mod_0_l, Z.neq_sym, Z.lt_neq. }
  apply Z.mod_divide in Hd as [q Hq]; [|lia].
  assert (q = 0%Z) as -> by (destruct (Z.lt_trichotomy q 0) as [|[|]]; nia).
  lia.
Qed.

Section RoundRobin.
Variable sender_sessions : list string.
Variable disabled_until : gmap string Q.
Variable now_ts : Q.
Variable perma_blocked : gset string.
Variable mode : string.
Variable order : list nat.
Hypothesis not_single : mode ≠ "single_account".
Hypothesis not_random : mode ≠ "random".
Hypothesis some_session : sender_sessions ≠ [].

Abbreviation n := (Z.of_nat (length sender_sessions)).
Abbreviation choose :=
  (choose_sender_index sender_sessions disabled_until now_ts perma_blocked
     mode).
Abbreviation avail_at :=
  (available_at sender_sessions disabled_until now_ts perma_blocked).

Lemma n_positive : (0 < n)%Z.
Proof using some_session. destruct sender_sessions; [done|simpl; lia]. Qed.

Lemma choose_round (last_index : Z) :
  choose last_index order =
  scan_round sender_sessions disabled_until now_ts perma_blocked
    (length sender_sessions) last_index.
Proof using not_single not_random some_session.
  unfold choose_sender_index.
  destruct (Nat.eqb_spec (length sender_sessions) 0) as [E|_].
  - by destruct sender_sessions.
  - by rewrite !bool_decide_eq_false_2.
Qed.

Lemma choose_all_available (last_index : Z) :
  (∀ i, (0 ≤ i < n)%Z → avail_at i = true) →
  choose last_index order = Picked ((last_index + 1) mod n)%Z.
Proof using not_single not_random some_session.
  intros Hall. rewrite choose_round.
  pose proof n_positive as Hn.
  pose proof (scan_round_spec sender_sessions disabled_until now_ts
                perma_blocked (length sender_sessions) last_index Hn) as H.
  destruct (scan_round _ _ _ _ _ _) as [i| |]; [| |done].
  - destruct H as (j & Hj & -> & _ & Hmin).
    destruct (decide (j = 1%Z)) as [->|Hne]; [done|].
    pose proof (Hmin 1%Z ltac:(lia)) as Hc.
    rewrite Hall in Hc; [done|]. apply Z.mod_pos_bound. lia.
  - pose proof (H 1%Z ltac:(lia)) as Hc.
    rewrite Hall in Hc; [done|]. apply Z.mod_pos_bound. lia.
Qed.

Lemma select_run_all_available (k : nat) (last_index : Z) :
  (∀ i, (0 ≤ i < n)%Z → avail_at i = true) →
  select_run sender_sessions disabled_until now_ts perma_blocked mode order
    k last_index =
  (λ j, Picked ((last_index + 1 + Z.of_nat j) mod n)%Z) <$> seq 0 k.
Proof using not_single not_random some_session.
  intros Hall. pose proof n_positive as Hn. revert last_index.
  induction k as [|k IH]; intros last_index; [done|].
  cbn [select_run]. rewrite (choose_all_available _ Hall), IH.
  cbn [seq fmap list_fmap]. f_equal.
  - by rewrite Z.add_0_r.
  - rewrite <- fmap_S_seq, <- list_fmap_compose.
    apply list_fmap_ext. intros _ j _. simpl. f_equal.
    rewrite <- Z.add_assoc, Z.add_mod_idemp_l by lia. f_equal. lia.
Qed.

End RoundRobin.

(** C6.  In the round-robin mode (any mode string other than
    [single_account] and [random]) and with a non-empty pool, a call of
    [choose_sender_index] steps the cursor by one position modulo the pool
    size before each test, tests at most one full turn, and returns the
    first available position met after the cursor, or [None] exactly when
    no position is available.  With every position available it returns the
    position after the cursor, and as many calls in a row as there are
    sessions, each fed the index the one before returned, return every
    position exactly once. *)
Theorem round_robin_rotation (mode : string) (sender_sessions : list string)
    (last_index : Z) (disabled_until : gmap string Q) (now_ts : Q)
    (perma_blocked : gset string) (order : list nat) :
  mode ≠ "single_account" → mode ≠ "random" → sender_sessions ≠ [] →
  let n := Z.of_nat (length sender_sessions) in
  let avail_at :=
    available_at sender_sessions disabled_until now_ts perma_blocked in
  let r := choose_sender_index sender_sessions disabled_until now_ts
             perma_blocked mode last_index order in
  (∀ i, r = Picked i ↔
        ∃ j, (1 ≤ j ≤ n)%Z ∧ i = ((last_index + j) mod n)%Z
             ∧ avail_at i = true
             ∧ ∀ j', (1 ≤ j' < j)%Z →
                     avail_at ((last_index + j') mod n)%Z = false)
  ∧ (r = Exhausted ↔ ∀ i, (0 ≤ i < n)%Z → avail_at i = false)
  ∧ ((∀ i, (0 ≤ i < n)%Z → avail_at i = true) →
       r = Picked ((last_index + 1) mod n)%Z
       ∧ select_run sender_sessions disabled_until now_ts perma_blocked
           mode order (length sender_sessions) last_index
         ≡ₚ Picked <$> seqZ 0 n).
Proof.
  intros Hs Hr Hne n avail_at r.
  pose proof (n_positive sender_sessions Hne) as Hn. fold n in Hn.
  pose proof (scan_round_spec sender_sessions disabled_until now_ts
                perma_blocked (length sender_sessions) last_index Hn) as H.
  rewrite <- (choose_round _ disabled_until now_ts perma_blocked mode order
                Hs Hr Hne) in H.
  fold r n avail_at in H.
  split; [|split].
  - intros i. split.
    + intros E. rewrite E in H. exact H.
    + intros (j & Hj & -> & Hav & Hmin).
      destruct r as [i'| |]; [| |done].
      * destruct H as (j0 & Hj0 & -> & Hav0 & Hmin0).
        destruct (Z.lt_trichotomy j j0) as [Hlt|[->|Hgt]]; [|done|].
        -- rewrite Hmin0 in Hav by lia. done.
        -- rewrite Hmin in Hav0 by lia. done.
      * rewrite H in Hav by lia. done.
  - split.
    + intros E i Hi. rewrite E in H.
      destruct (position_after sender_sessions last_index i Hi)
        as (j & Hj & <-).
      by apply H.
    + intros Hnone. destruct r as [i| |]; [|done|done].
      destruct H as (j & _ & -> & Hav & _).
      rewrite Hnone in Hav; [done|]. apply Z.mod_pos_bound. lia.
  - intros Hall. split.
    + by apply choose_all_available.
    + rewrite select_run_all_available by done.
      rewrite (list_fmap_compose (λ j, ((last_index + 1 + Z.of_nat j) mod n)%Z)
                 Picked).
      apply fmap_Permutation, NoDup_Permutation.
      * apply NoDup_fmap_2_strong; [|apply NoDup_seq].
        intros j1 j2 [_ H1]%elem_of_seq [_ H2]%elem_of_seq E.
        apply Nat2Z.inj, (shift_mod_inj n (last_index + 1)); [lia..|done].
      * apply NoDup_seqZ.
      * intros i. rewrite list_elem_of_fmap, elem_of_seqZ. split.
        -- intros (j & -> & _). pose proof (Z.mod_pos_bound
             (last_index + 1 + Z.of_nat j) n Hn). lia.
        -- intros Hi.
           destruct (position_after sender_sessions last_index i) as (j & Hj & <-);
             [lia|].
           exists (Z.to_nat (j - 1)). split.
           ++ f_equal. lia.
           ++ apply elem_of_seq. lia.
Qed.

Lemma round_robin_rotation_witness :
  "round_robin" ≠ "single_account" ∧ "round_robin" ≠ "random"
  ∧ ["s0"; "s1"; "s2"] ≠ []
  ∧ (choose_sender_index ["s0"; "s1"; "s2"] ∅ 10%Q ∅ "round_robin" (-1) []
     = Exhausted ↔
     ∀ i, (0 ≤ i < 3)%Z →
          available_at ["s0"; "s1"; "s2"] ∅ 10%Q ∅ i = false).
Proof.
  assert ("round_robin" ≠ "single_account") as H1 by done.
  assert ("round_robin" ≠ "random") as H2 by done.
  assert (["s0"; "s1"; "s2"] ≠ []) as H3 by done.
  split; [exact H1|]. split; [exact H2|]. split; [exact H3|].
  exact (proj1 (proj2 (round_robin_rotation "round_robin" ["s0"; "s1"; "s2"]
                         (-1) ∅ 10%Q ∅ [] H1 H2 H3))).
Defined.

Example round_robin_three_calls :
  select_run ["s0"; "s1"; "s2"] ∅ 10%Q ∅ "round_robin" [] 4 (-1)
  = [Picked 0; Picked 1; Picked 2; Picked 0]
  ∧ choose_sender_index ["s0"; "s1"; "s2"] {[ "s1" := 50%Q ]} 10%Q {[ "s2" ]}
      "round_robin" 0 [] = Picked 0.
Proof. vm_compute. split; reflexivity. Qed.

(** ** C9: the history window *)

Lemma load_after_append (ledger : option (list ledger_row)) (r v : string)
    (t0 : Z) :
  ledger ≠ Some [] →
  load_sent_history (append_sent_history ledger r v t0) !! PairKey r v
  = Some (Stamp t0).
Proof.
  intros Hne. destruct ledger as [[|row rows]|]; [done| |]; simpl.
  - rewrite foldl_app. simpl. apply lookup_insert_eq.
  - apply lookup_insert_eq.
Qed.

Lemma within_window_stamp (hist : gmap hist_key hist_val) (r v : string)
    (days now t0 : Z) :
  hist !! PairKey r v = Some (Stamp t0) →
  within_history_window hist r v days now
  = Some (bool_decide (now - t0 < days * day_us)%Z).
Proof. intros H. unfold within_history_window. by rewrite H. Qed.


Example cooldown_five_days :
  let hist := load_sent_history (append_sent_history None "@bobby" "AUTO:default" 1000) in
  within_history_window hist "@bobby" "AUTO:default" 5 1000 = Some true
  ∧ within_history_window hist "@bobby" "AUTO:default" 5 (1000 + 5 * day_us - 1)
    = Some true
  ∧ within_history_window hist "@bobby" "AUTO:default" 5 (1000 + 5 * day_us)
    = Some false
  ∧ within_history_window hist "@carol" "AUTO:default" 5 1000 = Some false
  ∧ within_history_window hist "@bobby" "OTHER:default" 5 1000 = Some false.
Proof. vm_compute. repeat split; reflexivity. Qed.

(** ** The send loop *)

Lemma send_one_message_capped (w : world) (c : gmap string Z)
    (s u : string) (now_ts jit : Q) (a : reply) :
  (2 ≤ count_of c s)%Z →
  send_one_message w c s u now_ts jit a =
  (false,
   with_disabled_until w (<[s := (now_ts + jit)%Q]> (disabled_until w)),
   c).
Proof.
  intros H. unfold send_one_message. fold (count_of c s).
  by destruct (Z.leb_spec 2 (count_of c s)); [|lia].
Qed.

Lemma send_one_message_delivered (w : world) (c : gmap string Z)
    (s u : string) (now_ts jit : Q) :
  (count_of c s < 2)%Z →
  send_one_message w c s u now_ts jit Delivered =
  (true,
   with_sent_hist (with_outbox w (outbox w ++ [(s, u, Delivered)]))
     (<[NameKey (lower u) := Secs now_ts]> (sent_hist w)),
   <[s := (count_of c s + 1)%Z]> c).
Proof.
  intros H. unfold send_one_message. fold (count_of c s).
  by destruct (Z.leb_spec 2 (count_of c s)); [lia|].
Qed.

Lemma send_one_message_failed (w : world) (c : gmap string Z)
    (s u : string) (now_ts jit : Q) (a : reply) :
  (count_of c s < 2)%Z → a ≠ Delivered →
  ∃ w', send_one_message w c s u now_ts jit a = (false, w', c)
        ∧ outbox w' = outbox w ++ [(s, u, a)]
        ∧ files w' = files w ∧ send_log w' = send_log w
        ∧ ledger w' = ledger w ∧ sent_hist w' = sent_hist w
        ∧ last_idx w' = last_idx w
        ∧ match cooldown_of a with
          | None => disabled_until w' = disabled_until w
          | Some d =>
              ∃ until, disabled_until w' = <[s := until]> (disabled_until w)
                       ∧ (until == now_ts + d)%Q
          end.
Proof.
  intros H Ha. unfold send_one_message. fold (count_of c s).
  destruct (Z.leb_spec 2 (count_of c s)); [lia|].
  destruct a as [| | | |seconds|]; [done|..]; eexists; simpl;
    (repeat split; try reflexivity); simpl.
  - eexists. split; [reflexivity|]. reflexivity.
  - eexists. split; [reflexivity|]. symmetry. apply Qplus_assoc.
  - eexists. split; [reflexivity|]. reflexivity.
Qed.

Lemma settle_keeps (fl : flow) (o : oracle) (username uname s : string)
    (ok : bool) (w : world) :
  outbox (settle fl o username uname s ok w) = outbox w
  ∧ disabled_until (settle fl o username uname s ok w) = disabled_until w
  ∧ sent_hist (settle fl o username uname s ok w) = sent_hist w
  ∧ last_idx (settle fl o username uname s ok w) = last_idx w.
Proof. by destruct ok. Qed.

Lemma settle_failed (fl : flow) (o : oracle) (username uname s : string)
    (w : world) :
  files (settle fl o username uname s false w)
  = (move_line_to_end_atomic (files w) (file_path fl) username).1
  ∧ send_log (settle fl o username uname s false w) = send_log w
  ∧ ledger (settle fl o username uname s false w) = ledger w.
Proof. done. Qed.

Lemma settle_delivered (fl : flow) (o : oracle) (username uname s : string)
    (w : world) :
  files (settle fl o username uname s true w)
  = remove_username_from_file_atomic (files w) (file_path fl) username
  ∧ send_log (settle fl o username uname s true w)
    = append_send_log (send_log w)
        [log_stamp o; uname; flow_name fl; s; "OK"; ""]
  ∧ ledger (settle fl o username uname s true w)
    = append_sent_history (ledger w) uname
        (message_key_for (flow_name fl) (template_name fl)) (wall_record o).
Proof. done. Qed.

(** When the loop body reaches [send_one_message], its result is that of
    [send_one_message] followed by [settle]. *)
Lemma process_recipient_reaches (cfg : config) (perma_blocked : gset string)
    (fl : flow) (o : oracle) (username : string) (w : world)
    (c : gmap string Z) (s : string) :
  reaches_send cfg perma_blocked fl o username w s →
  ∃ idx,
    session_at (sender_sessions cfg) idx = Some s
    ∧ process_recipient cfg perma_blocked fl o username w c =
      let r := send_one_message (with_last_idx w idx) c s
                 (normalize_recipient username) (mono_send o) (jitter o)
                 (answer o) in
      Some (settle fl o username (normalize_recipient username) s r.1.1 r.1.2,
            r.2).
Proof.
  intros (Hvalid & Hwin & idx & Hpick & Hs). exists idx. split; [done|].
  unfold process_recipient. rewrite Hvalid, Hwin, Hpick, Hs. simpl.
  by destruct (send_one_message _ _ _ _ _ _ _) as [[ok w1] c1].
Qed.

(** A failed call through the loop body: the recipient is requeued, the
    logs and the history stay as they were. *)
Lemma process_recipient_failed (cfg : config) (perma_blocked : gset string)
    (fl : flow) (o : oracle) (username : string) (w : world)
    (c : gmap string Z) (s : string) :
  reaches_send cfg perma_blocked fl o username w s →
  (count_of c s < 2)%Z → answer o ≠ Delivered →
  ∃ w', process_recipient cfg perma_blocked fl o username w c = Some (w', c)
        ∧ outbox w' = outbox w ++ [(s, normalize_recipient username, answer o)]
        ∧ files w'
          = (move_line_to_end_atomic (files w) (file_path fl) username).1
        ∧ send_log w' = send_log w ∧ ledger w' = ledger w
        ∧ sent_hist w' = sent_hist w
        ∧ match cooldown_of (answer o) with
          | None => disabled_until w' = disabled_until w
          | Some d =>
              ∃ until, disabled_until w' = <[s := until]> (disabled_until w)
                       ∧ (until == mono_send o + d)%Q
          end.
Proof.
  intros Hreach Hcount Ha.
  destruct (process_recipient_reaches _ _ _ _ _ _ c _ Hreach)
    as (idx & Hs & ->).
  destruct (send_one_message_failed (with_last_idx w idx) c s
              (normalize_recipient username) (mono_send o) (jitter o)
              (answer o) Hcount Ha)
    as (w1 & -> & Hout & Hfiles & Hlog & Hledger & Hhist & _ & Hcool).
  cbv zeta. cbn [fst snd]. eexists. split; [reflexivity|].
  destruct (settle_keeps fl o username (normalize_recipient username) s
              false w1) as (-> & -> & -> & _).
  destruct (settle_failed fl o username (normalize_recipient username) s w1)
    as (-> & -> & ->).
  rewrite Hout, Hfiles, Hlog, Hledger, Hhist. by repeat split.
Qed.

(** A requeued recipient that was in the queue is in it afterwards, last. *)
Lemma requeued_stays (fs : gmap string string) (path username : string) :
  username ∈ load fs path →
  ∃ pre post,
    load fs path = pre ++ username :: post
    ∧ load (move_line_to_end_atomic fs path username).1 path
      = pre ++ post ++ [username].
Proof.
  unfold load. intros Hin.
  apply list_elem_of_split_l in Hin as (pre & post & E & Hpre).
  exists pre, post. split; [done|]. by apply moved_queue.
Qed.

Lemma process_recipient_delivered (cfg : config) (perma_blocked : gset string)
    (fl : flow) (o : oracle) (username : string) (w : world)
    (c : gmap string Z) (s : string) :
  reaches_send cfg perma_blocked fl o username w s →
  (count_of c s < 2)%Z → answer o = Delivered →
  ∃ w', process_recipient cfg perma_blocked fl o username w c
        = Some (w', <[s := (count_of c s + 1)%Z]> c)
        ∧ outbox w' = outbox w ++ [(s, normalize_recipient username, Delivered)]
        ∧ files w'
          = remove_username_from_file_atomic (files w) (file_path fl) username
        ∧ send_log w'
          = append_send_log (send_log w)
              [log_stamp o; normalize_recipient username; flow_name fl; s;
               "OK"; ""]
        ∧ ledger w'
          = append_sent_history (ledger w) (normalize_recipient username)
              (message_key_for (flow_name fl) (template_name fl))
              (wall_record o)
        ∧ sent_hist w'
          = <[NameKey (lower (normalize_recipient username))
                := Secs (mono_send o)]> (sent_hist w)
        ∧ disabled_until w' = disabled_until w.
Proof.
  intros Hreach Hcount Ha.
  destruct (process_recipient_reaches _ _ _ _ _ _ c _ Hreach)
    as (idx & Hs & ->).
  rewrite Ha, send_one_message_delivered by done.
  cbv zeta. cbn [fst snd]. eexists. split; [reflexivity|].
  by repeat split.
Qed.

(** An index the selector returns is that of an available session,
    whatever the shuffle was. *)
Lemma picked_available (sender_sessions : list string)
    (disabled_until : gmap string Q) (now_ts : Q)
    (perma_blocked : gset string) (mode : string) (last_index : Z)
    (order : list nat) (i : Z) :
  choose_sender_index sender_sessions disabled_until now_ts perma_blocked
    mode last_index order = Picked i →
  available_at sender_sessions disabled_until now_ts perma_blocked i = true.
Proof.
  unfold choose_sender_index.
  destruct (Nat.eqb_spec (length sender_sessions) 0) as [|Hn]; [done|].
  case_bool_decide as Hsingle; [|case_bool_decide as Hrandom].
  - destruct (session_at sender_sessions 0) as [sess|] eqn:Hs; [|done].
    destruct (is_available _ _ _ sess) eqn:Hav; [|done].
    intros [= <-]. unfold available_at. by rewrite Hs.
  - induction order as [|k order IH]; simpl; [done|].
    destruct (sender_sessions !! k) as [sess|] eqn:Hk; [|done].
    destruct (is_available _ _ _ sess) eqn:Hav; [|done].
    intros [= <-]. unfold available_at, session_at.
    destruct (Z.ltb_spec (Z.of_nat k) 0); [lia|].
    by rewrite Nat2Z.id, Hk.
  - intros E.
    pose proof (scan_round_spec sender_sessions disabled_until now_ts
                  perma_blocked (length sender_sessions) last_index) as H.
    rewrite E in H. destruct H as (j & _ & _ & Hav & _); [lia|done].
Qed.

Lemma unavailable_before (disabled_until : gmap string Q) (t until : Q)
    (perma_blocked : gset string) (s : string) :
  disabled_until !! s = Some until → (t < until)%Q →
  is_available disabled_until t perma_blocked s = false.
Proof.
  intros Hs Ht. unfold is_available. case_decide; [done|].
  rewrite Hs. simpl. apply not_true_is_false. rewrite Qle_bool_iff.
  by apply Qlt_not_le.
Qed.

Lemma not_picked_before (sender_sessions : list string)
    (disabled_until : gmap string Q) (t until : Q)
    (perma_blocked : gset string) (s : string) (mode : string)
    (last_index : Z) (order : list nat) (i : Z) :
  disabled_until !! s = Some until → (t < until)%Q →
  choose_sender_index sender_sessions disabled_until t perma_blocked
    mode last_index order = Picked i →
  session_at sender_sessions i ≠ Some s.
Proof.
  intros Hs Ht Hpick Hat. apply picked_available in Hpick.
  unfold available_at in Hpick. rewrite Hat in Hpick.
  by rewrite (unavailable_before _ _ _ _ _ Hs Ht) in Hpick.
Qed.

(** *** Counting the deliveries of a run *)

Lemma delivered_by_snoc (s : string) (calls : list (string * string * reply))
    (x : string * string * reply) :
  delivered_by s (calls ++ [x]) =
  (delivered_by s calls
   + if decide (x.1.1 = s ∧ x.2 = Delivered) then 1 else 0)%nat.
Proof.
  unfold delivered_by. rewrite filter_app, length_app. f_equal.
  rewrite filter_cons, filter_nil. by case_decide.
Qed.

Lemma count_of_insert_eq (c : gmap string Z) (s : string) (v : Z) :
  count_of (<[s := v]> c) s = v.
Proof. unfold count_of. by rewrite lookup_insert_eq. Qed.

Lemma count_of_insert_ne (c : gmap string Z) (s s' : string) (v : Z) :
  s ≠ s' → count_of (<[s := v]> c) s' = count_of c s'.
Proof. intros H. unfold count_of. by rewrite lookup_insert_ne. Qed.

Lemma send_one_message_counted (base : string → nat) (w : world)
    (c : gmap string Z) (s u : string) (now_ts jit : Q) (a : reply) :
  counted base w c →
  counted base (send_one_message w c s u now_ts jit a).1.2
               (send_one_message w c s u now_ts jit a).2.
Proof.
  intros Hinv.
  destruct (Z.le_gt_cases 2 (count_of c s)) as [Hcap|Hlow].
  - by rewrite send_one_message_capped.
  - destruct (decide (a = Delivered)) as [->|Ha].
    + rewrite send_one_message_delivered by lia. intros s'.
      cbn [fst snd outbox with_sent_hist with_outbox].
      destruct (Hinv s') as [Hc Hd]. rewrite delivered_by_snoc.
      cbn [fst snd].
      destruct (decide (s = s')) as [->|Hne].
      * rewrite count_of_insert_eq, decide_True by done. split; lia.
      * rewrite count_of_insert_ne, decide_False by tauto. split; lia.
    + destruct (send_one_message_failed w c s u now_ts jit a)
        as (w' & -> & Hout & _); [lia|done|].
      intros s'. cbn [fst snd]. destruct (Hinv s') as [Hc Hd].
      rewrite Hout, delivered_by_snoc. cbn [fst snd].
      rewrite decide_False by tauto. split; lia.
Qed.

Lemma process_recipient_counted (base : string → nat) (cfg : config)
    (perma_blocked : gset string) (fl : flow) (o : oracle)
    (username : string) (w w' : world) (c c' : gmap string Z) :
  counted base w c →
  process_recipient cfg perma_blocked fl o username w c = Some (w', c') →
  counted base w' c'.
Proof.
  intros Hinv. unfold process_recipient.
  destruct (is_valid_tg_username_recipient _); simpl; [|by intros [= <- <-]].
  destruct (within_history_window _ _ _ _ _) as [[|]|];
    [by intros [= <- <-]| |done].
  destruct (choose_sender_index _ _ _ _ _ _ _) as [idx| |];
    [|by intros [= <- <-]|done].
  destruct (session_at _ idx) as [s|]; [|done].
  pose proof (send_one_message_counted base (with_last_idx w idx) c s
                (normalize_recipient username) (mono_send o) (jitter o)
                (answer o) Hinv) as H.
  destruct (send_one_message _ _ _ _ _ _ _) as [[ok w1] c1].
  intros [= <- <-]. simpl in H. intros s'.
  destruct (settle_keeps fl o username (normalize_recipient username) s ok w1)
    as (-> & _). apply H.
Qed.

Lemma process_all_counted (base : string → nat) (cfg : config)
    (perma_blocked : gset string) (fl : flow)
    (turns : list (string * oracle)) (w w' : world) (c c' : gmap string Z) :
  counted base w c →
  process_all cfg perma_blocked fl turns w c = Some (w', c') →
  counted base w' c'.
Proof.
  revert w c. induction turns as [|[username o] turns IH]; intros w c Hinv.
  - by intros [= <- <-].
  - simpl.
    destruct (process_recipient _ _ _ _ _ _ _) as [[w1 c1]|] eqn:E; [|done].
    apply IH. by apply (process_recipient_counted _ _ _ _ _ _ _ _ _ _ Hinv E).
Qed.

Lemma demo_reaches (a : reply) :
  reaches_send demo_config ∅ demo_flow (demo_oracle a) "@alice_x" demo_world "s1".
Proof.
  split; [by vm_compute|]. split; [by vm_compute|].
  exists 0%Z. split; by vm_compute.
Qed.

Lemma demo_queued : "@alice_x" ∈ load (files demo_world) (file_path demo_flow).
Proof.
  assert (load (files demo_world) (file_path demo_flow) = ["@alice_x"; "@bobby"])
    as -> by (by vm_compute).
  by left.
Qed.

(** ** C1: a permanent failure *)

(** C1 (what the code does instead).  When [client.send_message] fails with
    [UserPrivacyRestricted] or [BadRequest], the loop body does not raise and
    the session gets no cooldown, but the recipient is not removed from the
    queue file: [move_line_to_end_atomic] puts it last, so it is still queued
    and a later pass sends to it again. *)
Theorem permanent_failure_requeued (cfg : config) (perma_blocked : gset string)
    (fl : flow) (o : oracle) (username : string) (w : world)
    (c : gmap string Z) (s : string) :
  reaches_send cfg perma_blocked fl o username w s →
  (count_of c s < 2)%Z →
  answer o = UserPrivacyRestricted ∨ answer o = BadRequest →
  username ∈ load (files w) (file_path fl) →
  ∃ w', process_recipient cfg perma_blocked fl o username w c = Some (w', c)
        ∧ outbox w' = outbox w ++ [(s, normalize_recipient username, answer o)]
        ∧ disabled_until w' = disabled_until w
        ∧ username ∈ load (files w') (file_path fl)
        ∧ ∃ pre post,
            load (files w) (file_path fl) = pre ++ username :: post
            ∧ load (files w') (file_path fl) = pre ++ post ++ [username].
Proof.
  intros Hreach Hcount Ha Hin.
  destruct (process_recipient_failed _ _ _ _ _ _ c _ Hreach Hcount)
    as (w' & Hw' & Hout & Hfiles & _ & _ & _ & Hcool).
  { by destruct Ha as [-> | ->]. }
  exists w'. split; [done|]. split; [done|]. split.
  { by destruct Ha as [Ha|Ha]; rewrite Ha in Hcool. }
  destruct (requeued_stays _ _ _ Hin) as (pre & post & E & E').
  rewrite Hfiles. split.
  - rewrite E'. rewrite !elem_of_app. right. right. by left.
  - by exists pre, post.
Qed.

Lemma permanent_failure_requeued_witness :
  reaches_send demo_config ∅ demo_flow (demo_oracle BadRequest) "@alice_x"
    demo_world "s1"
  ∧ (count_of ∅ "s1" < 2)%Z
  ∧ "@alice_x" ∈ load (files demo_world) (file_path demo_flow)
  ∧ ∃ w', process_recipient demo_config ∅ demo_flow (demo_oracle BadRequest)
            "@alice_x" demo_world ∅ = Some (w', ∅)
          ∧ "@alice_x" ∈ load (files w') (file_path demo_flow).
Proof.
  assert (count_of ∅ "s1" < 2)%Z as Hc by (by vm_compute).
  split; [apply demo_reaches|]. split; [exact Hc|].
  split; [apply demo_queued|].
  destruct (permanent_failure_requeued demo_config ∅ demo_flow
              (demo_oracle BadRequest) "@alice_x" demo_world ∅ "s1"
              (demo_reaches BadRequest) Hc (or_intror eq_refl) demo_queued)
    as (w' & Hw' & _ & _ & Hin & _).
  exists w'. by split.
Defined.

(** The same recipient is called again on the next pass. *)
Example permanent_failure_retried :
  match process_pass demo_config ∅ demo_flow
          [demo_oracle BadRequest; demo_oracle Delivered] demo_world ∅ with
  | Some (w1, c1) =>
      load (files w1) "q" = ["@alice_x"]
      ∧ match process_pass demo_config ∅ demo_flow
                [demo_oracle UserPrivacyRestricted] w1 c1 with
        | Some (w2, _) =>
            load (files w2) "q" = ["@alice_x"]
            ∧ outbox w2 = [("s1", "@alice_x", BadRequest);
                           ("s2", "@bobby", Delivered);
                           ("s1", "@alice_x", UserPrivacyRestricted)]
        | None => False
        end
  | None => False
  end.
Proof. vm_compute. repeat split; reflexivity. Qed.

(** ** C5: a temporary failure *)




Example flood_wait_pass :
  match process_recipient demo_config ∅ demo_flow
          (demo_oracle (FloodWait (Some 10%Z))) "@alice_x" demo_world ∅ with
  | Some (w1, c1) =>
      load (files w1) "q" = ["@bobby"; "@alice_x"]
      ∧ ledger w1 = None ∧ sent_hist w1 = ∅ ∧ c1 = ∅
      ∧ is_available (disabled_until w1) 110 ∅ "s1" = false
      ∧ is_available (disabled_until w1) 112 ∅ "s1" = true
  | None => False
  end.
Proof. vm_compute. repeat split; reflexivity. Qed.

(** ** C2: the send log *)

(** C2, read to the letter, fails: a call of the transport that ends in
    [PeerFlood] leaves the send log as it was. *)
Lemma failed_attempt_not_logged : ¬ logs_every_attempt.
Proof.
  intros H.
  destruct (process_recipient demo_config ∅ demo_flow (demo_oracle PeerFlood)
              "@alice_x" demo_world ∅) as [[w' c']|] eqn:E;
    [|by vm_compute in E].
  destruct (H _ _ _ _ _ _ _ _ _ E) as [row Hrow].
  - vm_compute in E. injection E as <- <-. simpl. discriminate.
  - vm_compute in E. injection E as <- <-. simpl in Hrow. discriminate Hrow.
Qed.

(** C2 (amended).  A turn of the loop body that calls the transport appends
    one row (timestamp, recipient, flow, session, "OK", "") to the send log
    when the message is delivered, and none when the call fails; the row is
    in the state from which the next recipient is processed. *)
Theorem delivered_send_logged (cfg : config) (perma_blocked : gset string)
    (fl : flow) (o : oracle) (username : string) (w : world)
    (c : gmap string Z) (s : string) :
  reaches_send cfg perma_blocked fl o username w s →
  (count_of c s < 2)%Z →
  ∃ w' c',
    process_recipient cfg perma_blocked fl o username w c = Some (w', c')
    ∧ outbox w' = outbox w ++ [(s, normalize_recipient username, answer o)]
    ∧ (answer o = Delivered →
       send_log w'
       = append_send_log (send_log w)
           [log_stamp o; normalize_recipient username; flow_name fl; s;
            "OK"; ""]
       ∧ match send_log w with
         | None => ∃ row, send_log w' = Some [log_header; row]
         | Some rows => ∃ row, send_log w' = Some (rows ++ [row])
         end)
    ∧ (answer o ≠ Delivered → send_log w' = send_log w)
    ∧ (∀ rest,
         process_all cfg perma_blocked fl ((username, o) :: rest) w c
         = process_all cfg perma_blocked fl rest w' c').
Proof.
  intros Hreach Hcount.
  destruct (decide (answer o = Delivered)) as [Ha|Ha].
  - destruct (process_recipient_delivered _ _ _ _ _ _ c _ Hreach Hcount Ha)
      as (w' & Hw' & Hout & _ & Hlog & _).
    exists w', (<[s := (count_of c s + 1)%Z]> c).
    split; [done|]. split; [by rewrite Ha|]. split; [|split].
    + intros _. split; [done|]. rewrite Hlog.
      destruct (send_log w); by eexists.
    + done.
    + intros rest. simpl. by rewrite Hw'.
  - destruct (process_recipient_failed _ _ _ _ _ _ c _ Hreach Hcount Ha)
      as (w' & Hw' & Hout & _ & Hlog & _).
    exists w', c. split; [done|]. split; [done|]. split; [done|].
    split; [done|]. intros rest. simpl. by rewrite Hw'.
Qed.

Lemma delivered_send_logged_witness :
  reaches_send demo_config ∅ demo_flow (demo_oracle Delivered) "@alice_x"
    demo_world "s1"
  ∧ (count_of ∅ "s1" < 2)%Z
  ∧ ∃ w' c', process_recipient demo_config ∅ demo_flow (demo_oracle Delivered)
               "@alice_x" demo_world ∅ = Some (w', c')
             ∧ send_log w'
               = Some [log_header;
                       ["2026-01-01T00:00:00+00:00"; "@alice_x"; "AUTO";
                        "s1"; "OK"; ""]].
Proof.
  assert (count_of ∅ "s1" < 2)%Z as Hc by (by vm_compute).
  split; [apply demo_reaches|]. split; [exact Hc|].
  destruct (delivered_send_logged demo_config ∅ demo_flow
              (demo_oracle Delivered) "@alice_x" demo_world ∅ "s1"
              (demo_reaches _) Hc)
    as (w' & c' & Hw' & _ & Hlog & _).
  exists w', c'. split; [done|].
  destruct (Hlog eq_refl) as [-> _]. reflexivity.
Defined.

(** ** C3: a delivered send and the in-memory history *)

(** C3 (what the code does instead).  A delivered send is appended to the
    ledger, but in memory [send_one_message] stores the time under the bare
    lower-cased recipient name, a key that [within_history_window] never
    reads: every lookup answers as it did before the send, so the lookup
    for the recipient and message key just sent answers [False] from then
    on in the running process, whereas on the reloaded ledger it answers
    [True] throughout the window. *)
Theorem delivered_send_not_seen (cfg : config) (perma_blocked : gset string)
    (fl : flow) (o : oracle) (username : string) (w : world)
    (c : gmap string Z) (s : string) :
  reaches_send cfg perma_blocked fl o username w s →
  (count_of c s < 2)%Z →
  answer o = Delivered →
  let uname := normalize_recipient username in
  let mkey := message_key_for (flow_name fl) (template_name fl) in
  ∃ w' c',
    process_recipient cfg perma_blocked fl o username w c = Some (w', c')
    ∧ ledger w' = append_sent_history (ledger w) uname mkey (wall_record o)
    ∧ sent_hist w'
      = <[NameKey (lower uname) := Secs (mono_send o)]> (sent_hist w)
    ∧ (∀ u m days now,
         within_history_window (sent_hist w') u m days now
         = within_history_window (sent_hist w) u m days now)
    ∧ (∀ now, (wall_check o ≤ now)%Z →
         within_history_window (sent_hist w') uname mkey (cooldown_days cfg) now
         = Some false)
    ∧ (ledger w ≠ Some [] →
       ∀ now,
         (wall_record o ≤ now < wall_record o + cooldown_days cfg * day_us)%Z →
         within_history_window (load_sent_history (ledger w')) uname mkey
           (cooldown_days cfg) now = Some true).
Proof.
  intros Hreach Hcount Ha uname mkey.
  destruct (process_recipient_delivered _ _ _ _ _ _ c _ Hreach Hcount Ha)
    as (w' & Hw' & _ & _ & _ & Hledger & Hhist & _).
  fold uname mkey in Hledger, Hhist.
  exists w', (<[s := (count_of c s + 1)%Z]> c).
  assert (∀ u m days now,
            within_history_window (sent_hist w') u m days now
            = within_history_window (sent_hist w) u m days now) as Hsame.
  { intros u m days now. unfold within_history_window.
    by rewrite Hhist, lookup_insert_ne. }
  split; [done|]. split; [done|]. split; [done|]. split; [done|]. split.
  - intros now Hnow. rewrite Hsame.
    destruct Hreach as (_ & Hwin & _). fold uname mkey in Hwin.
    unfold within_history_window in *.
    destruct (sent_hist w !! PairKey uname mkey) as [[dt|x]|]; [| |done].
    + injection Hwin as Hwin. apply bool_decide_eq_false in Hwin.
      f_equal. apply bool_decide_eq_false_2. lia.
    + done.
  - intros Hne now Hnow. rewrite Hledger.
    rewrite (within_window_stamp _ _ _ _ _ (wall_record o))
      by (by apply load_after_append).
    f_equal. apply bool_decide_eq_true_2. lia.
Qed.

Lemma delivered_send_not_seen_witness :
  reaches_send demo_config ∅ demo_flow (demo_oracle Delivered) "@alice_x"
    demo_world "s1"
  ∧ (count_of ∅ "s1" < 2)%Z
  ∧ ∃ w' c', process_recipient demo_config ∅ demo_flow (demo_oracle Delivered)
               "@alice_x" demo_world ∅ = Some (w', c')
             ∧ ledger w' = Some [HeaderRow; Entry 0 "@alice_x" "AUTO:default"]
             ∧ within_history_window (sent_hist w') "@alice_x" "AUTO:default"
                 5 1 = Some false.
Proof.
  assert (count_of ∅ "s1" < 2)%Z as Hc by (by vm_compute).
  split; [apply demo_reaches|]. split; [exact Hc|].
  destruct (delivered_send_not_seen demo_config ∅ demo_flow
              (demo_oracle Delivered) "@alice_x" demo_world ∅ "s1"
              (demo_reaches _) Hc eq_refl)
    as (w' & c' & Hw' & Hledger & _ & _ & Hnow & _).
  exists w', c'. split; [done|]. split.
  - rewrite Hledger. reflexivity.
  - apply (Hnow 1%Z). by vm_compute.
Defined.

(** The recipient is queued again by the listener and is sent to a second
    time, one microsecond after the first. *)
Example resent_within_window :
  match process_recipient demo_config ∅ demo_flow (demo_oracle Delivered)
          "@alice_x" demo_world ∅ with
  | Some (w1, c1) =>
      let w2 := with_files w1 (append_unique_line (files w1) "q" "@alice_x").1 in
      match process_recipient demo_config ∅ demo_flow
              (Oracle 1 101 [] 101 30 Delivered "later" 1) "@alice_x" w2 c1 with
      | Some (w3, _) =>
          outbox w3 = [("s1", "@alice_x", Delivered); ("s2", "@alice_x", Delivered)]
          ∧ within_history_window (load_sent_history (ledger w1))
              "@alice_x" "AUTO:default" 5 1 = Some true
      | None => False
      end
  | None => False
  end.
Proof. vm_compute. split; reflexivity. Qed.

(** ** C4: two sends for a session in a flow run *)

(** C4.  In a flow run, whose counter starts empty, the counter of a
    session is the number of messages it delivered in the run, and never
    exceeds 2.  Once it is 2, a call of [send_one_message] for that session
    sends nothing and counts nothing: it sets the cooldown-until of the
    session, in the map every flow selects from, to the time of the call
    plus the draw of [random.uniform(20, 40)], so until then the session is
    unavailable and no selection of any flow returns it, while a flow whose
    own counter for the session is below 2 does call the transport with it. *)
Theorem per_turn_cap (w : world) (c : gmap string Z) (s u : string)
    (now_ts jit : Q) (a : reply) :
  (2 ≤ count_of c s)%Z → (20 <= jit)%Q → (jit <= 40)%Q →
  let r := send_one_message w c s u now_ts jit a in
  r.1.1 = false ∧ outbox r.1.2 = outbox w ∧ r.2 = c
  ∧ sent_hist r.1.2 = sent_hist w
  ∧ (∃ until,
       disabled_until r.1.2 !! s = Some until
       ∧ (now_ts + 20 <= until)%Q ∧ (until <= now_ts + 40)%Q
       ∧ ∀ t perma, (t < until)%Q →
           is_available (disabled_until r.1.2) t perma s = false
           ∧ ∀ sessions mode last_index order i,
               choose_sender_index sessions (disabled_until r.1.2) t perma
                 mode last_index order = Picked i →
               session_at sessions i ≠ Some s)
  ∧ (∀ c2 u2 t2 jit2 a2, (count_of c2 s < 2)%Z →
       outbox (send_one_message r.1.2 c2 s u2 t2 jit2 a2).1.2
       = outbox w ++ [(s, u2, a2)])
  ∧ (∀ cfg perma fl turns w0 w1 c1,
       process_all cfg perma fl turns w0 ∅ = Some (w1, c1) →
       ∀ s', (0 ≤ count_of c1 s' ≤ 2)%Z
             ∧ delivered_by s' (outbox w1)
               = (delivered_by s' (outbox w0) + Z.to_nat (count_of c1 s'))%nat).
Proof.
  intros Hcap Hlo Hhi r. subst r.
  rewrite (send_one_message_capped _ _ _ _ _ _ _ Hcap). cbn [fst snd].
  split; [done|]. split; [done|]. split; [done|]. split; [done|].
  split; [|split].
  - exists (now_ts + jit)%Q. cbn [disabled_until with_disabled_until].
    rewrite lookup_insert_eq. split; [done|].
    split; [lra|]. split; [lra|].
    intros t perma Ht. split.
    + apply (unavailable_before _ _ (now_ts + jit)%Q); [|done].
      apply lookup_insert_eq.
    + intros sessions mode last_index order i.
      apply (not_picked_before _ _ _ (now_ts + jit)%Q); [|done].
      apply lookup_insert_eq.
  - intros c2 u2 t2 jit2 a2 Hc2.
    destruct (decide (a2 = Delivered)) as [->|Ha2].
    + by rewrite send_one_message_delivered.
    + destruct (send_one_message_failed
                  (with_disabled_until w
                     (<[s := (now_ts + jit)%Q]> (disabled_until w)))
                  c2 s u2 t2 jit2 a2 Hc2 Ha2) as (w' & -> & Hout & _).
      done.
  - intros cfg perma fl turns w0 w1 c1 Hrun.
    apply (process_all_counted (λ s', delivered_by s' (outbox w0))
             cfg perma fl turns w0 w1 ∅ c1); [|done].
    intros s'. unfold count_of. rewrite lookup_empty. simpl. split; lia.
Qed.

Lemma per_turn_cap_witness :
  (2 ≤ count_of {[ "s1" := 2%Z ]} "s1")%Z ∧ (20 <= 30)%Q ∧ (30 <= 40)%Q
  ∧ (send_one_message demo_world {[ "s1" := 2%Z ]} "s1" "@alice_x" 100 30
       Delivered).1.1 = false
  ∧ outbox (send_one_message demo_world {[ "s1" := 2%Z ]} "s1" "@alice_x"
              100 30 Delivered).1.2 = [].
Proof.
  assert (2 ≤ count_of {[ "s1" := 2%Z ]} "s1")%Z as H1 by (by vm_compute).
  assert (20 <= 30)%Q as H2 by (by vm_compute).
  assert (30 <= 40)%Q as H3 by (by vm_compute).
  split; [exact H1|]. split; [exact H2|]. split; [exact H3|].
  destruct (per_turn_cap demo_world {[ "s1" := 2%Z ]} "s1" "@alice_x" 100 30
              Delivered H1 H2 H3) as (Hok & Hout & _).
  by split.
Defined.

(** Three recipients and one session: the third is not sent to, the session
    cools down for the jitter, and another flow, with its own counter, sends
    through the session once the cooldown is over. *)
Example third_send_refused :
  let w := World {[ "q" := "@alice_x" +:+ nl +:+ "@bobby" +:+ nl +:+ "@carol" +:+ nl ]}
             None None ∅ (-1) ∅ [] in
  let cfg := Config "round_robin" ["s1"] 5 in
  match process_pass cfg ∅ demo_flow
          [demo_oracle Delivered; demo_oracle Delivered; demo_oracle Delivered]
          w ∅ with
  | Some (w1, c1) =>
      outbox w1 = [("s1", "@alice_x", Delivered); ("s1", "@bobby", Delivered)]
      ∧ load (files w1) "q" = ["@carol"]
      ∧ c1 = {[ "s1" := 2%Z ]}
      ∧ disabled_until w1 = {[ "s1" := (100 + 30)%Q ]}
      ∧ choose_sender_index ["s1"] (disabled_until w1) 129 ∅ "round_robin" 0 []
        = Exhausted
      ∧ (send_one_message w1 ∅ "s1" "@carol" 131 30 Delivered).1.1 = true
      ∧ (send_one_message w1 c1 "s1" "@carol" 131 30 Delivered).1.1 = false
  | None => False
  end.
Proof. vm_compute. repeat split; reflexivity. Qed.

(** * Further properties *)

(** ** Queue files: removing, rewriting, appending *)

Lemma tmp_path_differs (path : string) : path +:+ ".tmp" ≠ path.
Proof.
  induction path as [|c path IH]; [done|].
  rewrite sapp_cons. intros [= E]. by apply IH.
Qed.

Lemma atomic_write_lines_frame (fs : gmap string string) (path : string)
    (ls : list string) (p : string) :
  p ≠ path → p ≠ path +:+ ".tmp" →
  atomic_write_lines fs path ls !! p = fs !! p.
Proof.
  intros H1 H2. unfold atomic_write_lines.
  by rewrite lookup_insert_ne, lookup_delete_ne, lookup_insert_ne.
Qed.

Lemma atomic_write_lines_tmp (fs : gmap string string) (path : string)
    (ls : list string) :
  atomic_write_lines fs path ls !! (path +:+ ".tmp") = None.
Proof.
  unfold atomic_write_lines.
  rewrite lookup_insert_ne by (apply not_eq_sym, tmp_path_differs).
  apply lookup_delete_eq.
Qed.

Lemma removed_queue (fs : gmap string string) (path username : string) :
  read_lines_unique (remove_username_from_file_atomic fs path username) path
  = filter (λ l, l ≠ username) (read_lines_unique fs path).
Proof.
  unfold remove_username_from_file_atomic. apply read_after_write.
  - apply Forall_forall. intros l [_ Hl]%list_elem_of_filter.
    by apply (read_lines_unique_clean fs path).
  - apply NoDup_filter, read_lines_unique_NoDup.
Qed.

(** X1.  [remove_username_from_file_atomic] leaves in the queue exactly the
    entries other than the one given, in their order: the entry is gone, an
    absent entry changes nothing in the queue, removing twice is removing
    once, and a queue file that did not exist is created empty. *)
Theorem removed_from_queue (fs : gmap string string) (path username : string) :
  load (remove_username_from_file_atomic fs path username) path
  = filter (λ l, l ≠ username) (load fs path)
  ∧ (username ∉ load (remove_username_from_file_atomic fs path username) path)
  ∧ (username ∉ load fs path →
     load (remove_username_from_file_atomic fs path username) path
     = load fs path)
  ∧ load (remove_username_from_file_atomic
            (remove_username_from_file_atomic fs path username) path username)
         path
    = load (remove_username_from_file_atomic fs path username) path
  ∧ (fs !! path = None →
     remove_username_from_file_atomic fs path username !! path = Some "").
Proof.
  unfold load. rewrite !removed_queue.
  split; [done|]. split; [|split; [|split]].
  - rewrite list_elem_of_filter. tauto.
  - apply filter_ne_absent.
  - apply filter_ne_absent. rewrite list_elem_of_filter. tauto.
  - intros Hnone. unfold remove_username_from_file_atomic.
    rewrite atomic_write_lines_lookup, (read_lines_unique_missing _ _ Hnone).
    reflexivity.
Qed.

(** X2.  What [atomic_write_lines] wrote is read back unchanged by
    [read_lines_unique] when the lines are distinct, non-empty, stripped
    and free of line breaks; the temporary file is gone afterwards and no
    other file is touched. *)
Theorem written_queue_read_back (fs : gmap string string) (path : string)
    (ls : list string) :
  Forall clean ls → NoDup ls →
  load (atomic_write_lines fs path ls) path = ls
  ∧ atomic_write_lines fs path ls !! (path +:+ ".tmp") = None
  ∧ ∀ p, p ≠ path → p ≠ path +:+ ".tmp" →
         atomic_write_lines fs path ls !! p = fs !! p.
Proof.
  intros Hc Hn. split; [by apply read_after_write|].
  split; [apply atomic_write_lines_tmp|].
  intros p. apply atomic_write_lines_frame.
Qed.

Lemma written_queue_read_back_witness :
  Forall clean ["@alice_x"; "https://t.me/c/12/34"] ∧
  NoDup ["@alice_x"; "https://t.me/c/12/34"] ∧
  load (atomic_write_lines {[ "q" := "junk" ]} "q"
          ["@alice_x"; "https://t.me/c/12/34"]) "q"
  = ["@alice_x"; "https://t.me/c/12/34"].
Proof.
  assert (Forall clean ["@alice_x"; "https://t.me/c/12/34"]) as H1.
  { repeat constructor; by vm_compute. }
  assert (NoDup ["@alice_x"; "https://t.me/c/12/34"]) as H2.
  { apply NoDup_cons. split; [|apply NoDup_singleton].
    by intros [=]%list_elem_of_singleton. }
  split; [exact H1|]. split; [exact H2|].
  exact (proj1 (written_queue_read_back {[ "q" := "junk" ]} "q" _ H1 H2)).
Defined.

(** X3.  Whatever the file holds, the queue that [read_lines_unique] returns
    has no duplicates and only non-empty, stripped lines without line
    breaks, in the order of their first occurrence in the file; writing it
    back with [atomic_write_lines] and reading again gives the same queue. *)
Theorem loaded_queue_normal (fs : gmap string string) (path : string) :
  NoDup (load fs path)
  ∧ Forall clean (load fs path)
  ∧ load fs path = first_occurrences (file_lines (default "" (fs !! path)))
  ∧ load (atomic_write_lines fs path (load fs path)) path = load fs path.
Proof.
  unfold load.
  assert (Forall clean (read_lines_unique fs path)) as Hc.
  { apply Forall_forall. intros l. apply read_lines_unique_clean. }
  split; [apply read_lines_unique_NoDup|]. split; [done|].
  split; [apply read_lines_unique_default|].
  apply read_after_write; [done|apply read_lines_unique_NoDup].
Qed.

Lemma join_lines_terminated (ls : list string) : terminated (join_lines ls).
Proof.
  destruct ls as [|l ls]; [by left|]. right. simpl.
  induction ls as [|l' ls IH] in l |- *; simpl.
  - exists (rstrip_by is_LF l). by rewrite sapp_nil_r.
  - destruct (IH l') as [c0 Hc0]. simpl in Hc0.
    exists (rstrip_by is_LF l +:+ nl +:+ c0).
    by rewrite Hc0, !sapp_assoc.
Qed.

(** X4.  On a queue file that is missing, empty or ends with a line feed,
    as every file that [atomic_write_lines] or [append_unique_line] wrote
    does, [append_unique_line] with a non-empty stripped single line answers
    [False] and keeps the queue when the line is in it, and otherwise
    answers [True] and puts the line at the end of the queue, the earlier
    entries staying in place; no other file is touched. *)
Theorem append_to_written_queue (fs : gmap string string) (path r : string) :
  terminated (default "" (fs !! path)) → clean r →
  (r ∈ load fs path →
   (append_unique_line fs path r).2 = false
   ∧ load (append_unique_line fs path r).1 path = load fs path)
  ∧ (r ∉ load fs path →
     (append_unique_line fs path r).2 = true
     ∧ load (append_unique_line fs path r).1 path = load fs path ++ [r])
  ∧ terminated (default "" ((append_unique_line fs path r).1 !! path))
  ∧ (∀ p, p ≠ path → (append_unique_line fs path r).1 !! p = fs !! p)
  ∧ (∀ fs0 ls, terminated (default "" (atomic_write_lines fs0 path ls !! path))).
Proof.
  intros Ht Hr.
  pose proof (append_unique_line_content fs path r) as Hc. simpl in Hc.
  pose proof (append_unique_line_answer fs path r) as Ha.
  pose proof (read_lines_unique_elem fs path r) as Hin_iff.
  assert (∀ f, load f path
               = first_occurrences (file_lines (default "" (f !! path))))
    as Hload by (intros f; apply read_lines_unique_default).
  fold (load fs path) in Ha, Hin_iff.
  split; [|split; [|split; [|split]]].
  - intros Hin. rewrite Ha. split; [apply bool_decide_eq_false_2; tauto|].
    rewrite (Hload (append_unique_line fs path r).1), Hc.
    rewrite decide_True by tauto. symmetry. apply Hload.
  - intros Hout. rewrite Ha. split; [by apply bool_decide_eq_true_2|].
    rewrite (Hload (append_unique_line fs path r).1), Hc.
    rewrite decide_False by tauto.
    rewrite file_lines_append, (file_lines_clean _ Hr) by done.
    rewrite first_occurrences_app, <- Hload. simpl. rewrite filter_nil.
    rewrite filter_cons_True; [done|]. rewrite <- Hin_iff. done.
  - rewrite Hc. case_decide; [done|].
    right. exists (default "" (fs !! path) +:+ r). by rewrite sapp_assoc.
  - intros p Hp. unfold append_unique_line.
    case_decide; simpl; by rewrite lookup_insert_ne.
  - intros fs0 ls. rewrite atomic_write_lines_lookup. simpl.
    apply join_lines_terminated.
Qed.

Lemma append_to_written_queue_witness :
  terminated (default "" (({[ "q" := "@alice_x" +:+ nl ]} : gmap string string) !! "q"))
  ∧ clean "@bobby"
  ∧ load (append_unique_line {[ "q" := "@alice_x" +:+ nl ]} "q" "@bobby").1 "q"
    = ["@alice_x"; "@bobby"].
Proof.
  assert (terminated (default ""
            (({[ "q" := "@alice_x" +:+ nl ]} : gmap string string) !! "q")))
    as H1.
  { right. by exists "@alice_x". }
  assert (clean "@bobby") as H2 by (by vm_compute).
  split; [exact H1|]. split; [exact H2|].
  destruct (append_to_written_queue {[ "q" := "@alice_x" +:+ nl ]} "q" "@bobby"
              H1 H2) as (_ & Hout & _).
  assert (load {[ "q" := "@alice_x" +:+ nl ]} "q" = ["@alice_x"]) as E
    by (by vm_compute).
  destruct Hout as [_ ->].
  - rewrite E. intros [Hin|Hin]%elem_of_cons; [discriminate Hin|].
    by apply elem_of_nil in Hin.
  - by rewrite E.
Defined.

(** ** The loop body, branch by branch *)

Import Startup Ledger Tally.

Lemma process_recipient_invalid (cfg : config) (perma_blocked : gset string)
    (fl : flow) (o : oracle) (username : string) (w : world)
    (c : gmap string Z) :
  is_valid_tg_username_recipient (normalize_recipient username) = false →
  process_recipient cfg perma_blocked fl o username w c
  = Some (unqueue w fl username, c).
Proof. intros H. unfold process_recipient. by rewrite H. Qed.

Lemma process_recipient_deferred (cfg : config) (perma_blocked : gset string)
    (fl : flow) (o : oracle) (username : string) (w : world)
    (c : gmap string Z) :
  is_valid_tg_username_recipient (normalize_recipient username) = true →
  within_history_window (sent_hist w) (normalize_recipient username)
    (message_key_for (flow_name fl) (template_name fl))
    (cooldown_days cfg) (wall_check o) = Some true
  ∨ (within_history_window (sent_hist w) (normalize_recipient username)
       (message_key_for (flow_name fl) (template_name fl))
       (cooldown_days cfg) (wall_check o) = Some false
     ∧ choose_sender_index (sender_sessions cfg) (disabled_until w)
         (mono_select o) perma_blocked (send_mode cfg) (last_idx w)
         (shuffle o) = Exhausted) →
  process_recipient cfg perma_blocked fl o username w c
  = Some (requeue w fl username, c).
Proof.
  intros Hv [Hw|[Hw Hc]]; unfold process_recipient; rewrite Hv, Hw; simpl.
  - done.
  - by rewrite Hc.
Qed.

(** The three ways a turn of the loop body ends when it does not raise. *)
Lemma process_recipient_cases (cfg : config) (perma_blocked : gset string)
    (fl : flow) (o : oracle) (username : string) (w w' : world)
    (c c' : gmap string Z) :
  process_recipient cfg perma_blocked fl o username w c = Some (w', c') →
  (w' = unqueue w fl username ∧ c' = c)
  ∨ (w' = requeue w fl username ∧ c' = c)
  ∨ ∃ idx s,
      session_at (sender_sessions cfg) idx = Some s
      ∧ is_valid_tg_username_recipient (normalize_recipient username) = true
      ∧ choose_sender_index (sender_sessions cfg) (disabled_until w)
          (mono_select o) perma_blocked (send_mode cfg) (last_idx w)
          (shuffle o) = Picked idx
      ∧ w' = settle fl o username (normalize_recipient username) s
               (send_one_message (with_last_idx w idx) c s
                  (normalize_recipient username) (mono_send o) (jitter o)
                  (answer o)).1.1
               (send_one_message (with_last_idx w idx) c s
                  (normalize_recipient username) (mono_send o) (jitter o)
                  (answer o)).1.2
      ∧ c' = (send_one_message (with_last_idx w idx) c s
                (normalize_recipient username) (mono_send o) (jitter o)
                (answer o)).2.
Proof.
  unfold process_recipient.
  destruct (is_valid_tg_username_recipient _) eqn:Hv; simpl;
    [|intros [= <- <-]; by left].
  destruct (within_history_window _ _ _ _ _) as [[|]|];
    [intros [= <- <-]; right; by left| |done].
  destruct (choose_sender_index _ _ _ _ _ _ _) as [idx| |] eqn:Hc;
    [|intros [= <- <-]; right; by left|done].
  destruct (session_at _ idx) as [s|] eqn:Hs; [|done].
  destruct (send_one_message _ _ _ _ _ _ _) as [[ok w1] c1] eqn:E.
  intros [= <- <-]. right. right. exists idx, s. by rewrite E.
Qed.

(** What [send_one_message] leaves alone, and what it adds. *)
Lemma send_one_message_shape (w : world) (c : gmap string Z) (s u : string)
    (now_ts jit : Q) (a : reply) :
  let r := send_one_message w c s u now_ts jit a in
  files r.1.2 = files w ∧ send_log r.1.2 = send_log w
  ∧ ledger r.1.2 = ledger w ∧ last_idx r.1.2 = last_idx w
  ∧ (∀ s', s' ≠ s → disabled_until r.1.2 !! s' = disabled_until w !! s')
  ∧ (∀ u' m, sent_hist r.1.2 !! PairKey u' m = sent_hist w !! PairKey u' m)
  ∧ outbox w `prefix_of` outbox r.1.2
  ∧ deliveries (outbox r.1.2)
    = (deliveries (outbox w) + if r.1.1 then 1 else 0)%nat.
Proof.
  intros r. subst r.
  destruct (Z.le_gt_cases 2 (count_of c s)) as [Hcap|Hlow].
  - rewrite send_one_message_capped by done. cbn [fst snd].
    repeat split; try done;
      try (intros s' Hs'; simpl; by rewrite lookup_insert_ne);
      try (unfold deliveries; simpl; lia).
  - destruct (decide (a = Delivered)) as [->|Ha].
    + rewrite send_one_message_delivered by lia. cbn [fst snd].
      repeat split; try done;
        try (intros u' m; simpl; by rewrite lookup_insert_ne);
        try (simpl; by apply prefix_app_r).
      unfold deliveries. simpl. rewrite filter_app, length_app.
      by rewrite filter_cons_True.
    + destruct (send_one_message_failed w c s u now_ts jit a)
        as (w' & -> & Hout & Hf & Hl & Hled & Hh & Hidx & Hcool); [lia|done|].
      cbn [fst snd]. rewrite Hout, Hf, Hl, Hled, Hh, Hidx.
      split; [done|]. split; [done|]. split; [done|]. split; [done|].
      split; [|split; [done|split]].
      * intros s' Hs'. destruct (cooldown_of a).
        -- destruct Hcool as (until & -> & _). by rewrite lookup_insert_ne.
        -- by rewrite Hcool.
      * by apply prefix_app_r.
      * unfold deliveries. rewrite filter_app, length_app.
        rewrite filter_cons_False by done. simpl. lia.
Qed.

Lemma requeue_load (w : world) (fl : flow) (username x : string) :
  x ∈ load (files (requeue w fl username)) (file_path fl) ↔
  x ∈ load (files w) (file_path fl).
Proof.
  unfold requeue. cbn [files with_files].
  destruct (decide (username ∈ load (files w) (file_path fl))) as [Hin|Hout].
  - destruct (requeued_stays _ _ _ Hin) as (pre & post & -> & ->).
    rewrite !elem_of_app, !elem_of_cons, elem_of_nil. tauto.
  - unfold load in Hout. by rewrite move_line_to_end_atomic_absent.
Qed.

Lemma requeue_frame (w : world) (fl : flow) (username p : string) :
  p ≠ file_path fl → p ≠ file_path fl +:+ ".tmp" →
  files (requeue w fl username) !! p = files w !! p.
Proof.
  intros H1 H2. unfold requeue. cbn [files with_files].
  destruct (decide (username ∈ read_lines_unique (files w) (file_path fl)))
    as [Hin|Hout].
  - apply list_elem_of_split_l in Hin as (pre & post & E & Hpre).
    rewrite (move_line_to_end_atomic_present _ _ _ _ _ E Hpre). simpl.
    by apply atomic_write_lines_frame.
  - by rewrite move_line_to_end_atomic_absent.
Qed.

Lemma unqueue_load (w : world) (fl : flow) (username : string) :
  load (files (unqueue w fl username)) (file_path fl)
  = filter (λ l, l ≠ username) (load (files w) (file_path fl)).
Proof. apply removed_queue. Qed.

Lemma unqueue_frame (w : world) (fl : flow) (username p : string) :
  p ≠ file_path fl → p ≠ file_path fl +:+ ".tmp" →
  files (unqueue w fl username) !! p = files w !! p.
Proof.
  intros H1 H2. unfold unqueue, remove_username_from_file_atomic.
  cbn [files with_files]. by apply atomic_write_lines_frame.
Qed.

Lemma ok_rows_append (log : option (list (list string)))
    (stamp uname flow_n sess : string) :
  ok_rows (append_send_log log [stamp; uname; flow_n; sess; "OK"; ""])
  = S (ok_rows log).
Proof.
  unfold ok_rows. destruct log as [rows|]; simpl.
  - rewrite filter_app, length_app, filter_cons_True by done. simpl. lia.
  - reflexivity.
Qed.

Lemma ledger_entries_append (ledger : option (list ledger_row))
    (u m : string) (t : Z) :
  ledger_entries (append_sent_history ledger u m t) = S (ledger_entries ledger).
Proof.
  unfold ledger_entries. destruct ledger as [rows|]; simpl.
  - rewrite filter_app, length_app, filter_cons_True by done. simpl. lia.
  - reflexivity.
Qed.

Lemma append_send_log_prefix (log : option (list (list string)))
    (row : list string) :
  default [] log `prefix_of` default [] (append_send_log log row).
Proof.
  destruct log as [rows|]; simpl; [by apply prefix_app_r|apply prefix_nil].
Qed.

Lemma append_sent_history_prefix (ledger : option (list ledger_row))
    (u m : string) (t : Z) :
  default [] ledger `prefix_of` default [] (append_sent_history ledger u m t).
Proof.
  destruct ledger as [rows|]; simpl; [by apply prefix_app_r|apply prefix_nil].
Qed.

Lemma evolves_refl (cfg : config) (fl : flow) (w : world) : evolves cfg fl w w.
Proof.
  repeat split; try done; try by left.
  exists 0%nat. repeat split; lia.
Qed.

Lemma evolves_trans (cfg : config) (fl : flow) (w1 w2 w3 : world) :
  evolves cfg fl w1 w2 → evolves cfg fl w2 w3 → evolves cfg fl w1 w3.
Proof.
  intros (Hq1 & Hf1 & (k1 & Hd1 & Ho1 & He1) & Hl1 & Hg1 & Hb1 & Hc1 & Hi1 & Hh1)
         (Hq2 & Hf2 & (k2 & Hd2 & Ho2 & He2) & Hl2 & Hg2 & Hb2 & Hc2 & Hi2 & Hh2).
  split; [by auto|]. split.
  { intros p H1 H2. by rewrite Hf2, Hf1. }
  split. { exists (k1 + k2)%nat. repeat split; lia. }
  split; [by etrans|]. split; [by etrans|]. split; [by etrans|].
  split. { intros s Hs. by rewrite Hc2, Hc1. }
  split. { destruct Hi2 as [->|Hi2]; [done|by right]. }
  intros u m. by rewrite Hh2, Hh1.
Qed.

Lemma process_recipient_evolves (cfg : config) (perma_blocked : gset string)
    (fl : flow) (o : oracle) (username : string) (w w' : world)
    (c c' : gmap string Z) :
  process_recipient cfg perma_blocked fl o username w c = Some (w', c') →
  evolves cfg fl w w'.
Proof.
  intros Hstep.
  destruct (process_recipient_cases _ _ _ _ _ _ _ _ _ Hstep)
    as [[-> _]|[[-> _]|(idx & s & Hs & _ & _ & -> & _)]].
  - split. { intros x. rewrite unqueue_load, list_elem_of_filter. tauto. }
    split; [intros p; apply unqueue_frame|].
    split. { exists 0%nat. repeat split; simpl; lia. }
    repeat split; try done. by left.
  - split. { intros x. by rewrite requeue_load. }
    split; [intros p; apply requeue_frame|].
    split. { exists 0%nat. repeat split; simpl; lia. }
    repeat split; try done. by left.
  - pose proof (send_one_message_shape (with_last_idx w idx) c s
                  (normalize_recipient username) (mono_send o) (jitter o)
                  (answer o)) as Hshape.
    cbv zeta in Hshape.
    destruct (send_one_message _ _ _ _ _ _ _) as [[ok w1] c1].
    cbn [fst snd] in *.
    destruct Hshape as (Hf & Hl & Hled & Hidx & Hcool & Hh & Hpre & Hdel).
    cbn [files send_log ledger last_idx disabled_until sent_hist outbox
         with_last_idx] in *.
    apply session_at_Some in Hs as [Hrange Hin].
    destruct (settle_keeps fl o username (normalize_recipient username) s ok w1)
      as (Eout & Edu & Ehist & Eidx).
    split.
    { intros x. destruct ok.
      - destruct (settle_delivered fl o username
                    (normalize_recipient username) s w1) as (-> & _).
        rewrite Hf. fold (load (files w) (file_path fl)).
        change (x ∈ load (remove_username_from_file_atomic (files w)
                            (file_path fl) username) (file_path fl)
                → x ∈ load (files w) (file_path fl)).
        unfold load. rewrite removed_queue, list_elem_of_filter. tauto.
      - destruct (settle_failed fl o username
                    (normalize_recipient username) s w1) as (-> & _).
        rewrite Hf.
        change (x ∈ load (files (requeue w fl username)) (file_path fl)
                → x ∈ load (files w) (file_path fl)).
        by rewrite requeue_load. }
    split.
    { intros p H1 H2. destruct ok.
      - destruct (settle_delivered fl o username
                    (normalize_recipient username) s w1) as (-> & _).
        rewrite Hf. unfold remove_username_from_file_atomic.
        by apply atomic_write_lines_frame.
      - destruct (settle_failed fl o username
                    (normalize_recipient username) s w1) as (-> & _).
        rewrite Hf. by apply (requeue_frame w). }
    rewrite Eout, Edu, Ehist, Eidx, Hidx.
    split.
    { destruct ok.
      - destruct (settle_delivered fl o username
                    (normalize_recipient username) s w1) as (_ & -> & ->).
        exists 1%nat. rewrite Hl, Hled, ok_rows_append, ledger_entries_append.
        repeat split; lia.
      - destruct (settle_failed fl o username
                    (normalize_recipient username) s w1) as (_ & -> & ->).
        exists 0%nat. rewrite Hl, Hled. repeat split; lia. }
    split.
    { destruct ok.
      - destruct (settle_delivered fl o username
                    (normalize_recipient username) s w1) as (_ & -> & _).
        rewrite Hl. apply append_send_log_prefix.
      - destruct (settle_failed fl o username
                    (normalize_recipient username) s w1) as (_ & -> & _).
        by rewrite Hl. }
    split.
    { destruct ok.
      - destruct (settle_delivered fl o username
                    (normalize_recipient username) s w1) as (_ & _ & ->).
        rewrite Hled. apply append_sent_history_prefix.
      - destruct (settle_failed fl o username
                    (normalize_recipient username) s w1) as (_ & _ & ->).
        by rewrite Hled. }
    split; [done|]. split.
    { intros s' Hs'. apply Hcool. by intros ->. }
    split; [by right|done].
Qed.

Lemma process_all_evolves (cfg : config) (perma_blocked : gset string)
    (fl : flow) (turns : list (string * oracle)) (w w' : world)
    (c c' : gmap string Z) :
  process_all cfg perma_blocked fl turns w c = Some (w', c') →
  evolves cfg fl w w'.
Proof.
  revert w c. induction turns as [|[username o] turns IH]; intros w c.
  - intros [= <- <-]. apply evolves_refl.
  - simpl.
    destruct (process_recipient _ _ _ _ _ _ _) as [[w1 c1]|] eqn:E; [|done].
    intros Hrest. eapply evolves_trans.
    + by apply (process_recipient_evolves _ _ _ _ _ _ _ _ _ E).
    + by apply (IH _ _ Hrest).
Qed.

(** X5.  A queue entry whose normal form is not [@] followed by 5 to 32
    letters, digits or underscores is taken out of the queue without any
    call of the transport: the logs, the history, the cooldowns, the cursor
    and the counter stay as they were. *)
Theorem invalid_recipient_dropped (cfg : config) (perma_blocked : gset string)
    (fl : flow) (o : oracle) (username : string) (w : world)
    (c : gmap string Z) :
  is_valid_tg_username_recipient (normalize_recipient username) = false →
  ∃ w', process_recipient cfg perma_blocked fl o username w c = Some (w', c)
        ∧ load (files w') (file_path fl)
          = filter (λ l, l ≠ username) (load (files w) (file_path fl))
        ∧ outbox w' = outbox w ∧ send_log w' = send_log w
        ∧ ledger w' = ledger w ∧ sent_hist w' = sent_hist w
        ∧ disabled_until w' = disabled_until w ∧ last_idx w' = last_idx w.
Proof.
  intros Hv. exists (unqueue w fl username).
  split; [by apply process_recipient_invalid|].
  split; [apply unqueue_load|done].
Qed.

Lemma invalid_recipient_dropped_witness :
  is_valid_tg_username_recipient (normalize_recipient "https://t.me/c/12/34")
  = false
  ∧ ∃ w', process_recipient demo_config ∅ demo_flow (demo_oracle Delivered)
            "https://t.me/c/12/34" demo_world ∅ = Some (w', ∅)
          ∧ outbox w' = [].
Proof.
  assert (is_valid_tg_username_recipient
            (normalize_recipient "https://t.me/c/12/34") = false) as H
    by (by vm_compute).
  split; [exact H|].
  destruct (invalid_recipient_dropped demo_config ∅ demo_flow
              (demo_oracle Delivered) "https://t.me/c/12/34" demo_world ∅ H)
    as (w' & Hw' & _ & Hout & _).
  exists w'. by split.
Defined.

(** X6.  A valid recipient that is within the history window, or for whom
    the selector finds no sender, is moved to the end of the queue (if it
    is in it) and nothing else changes: no call of the transport, no log
    row, no change of cooldown, cursor or counter. *)
Theorem deferred_recipient_requeued (cfg : config) (perma_blocked : gset string)
    (fl : flow) (o : oracle) (username : string) (w : world)
    (c : gmap string Z) :
  is_valid_tg_username_recipient (normalize_recipient username) = true →
  within_history_window (sent_hist w) (normalize_recipient username)
    (message_key_for (flow_name fl) (template_name fl))
    (cooldown_days cfg) (wall_check o) = Some true
  ∨ (within_history_window (sent_hist w) (normalize_recipient username)
       (message_key_for (flow_name fl) (template_name fl))
       (cooldown_days cfg) (wall_check o) = Some false
     ∧ choose_sender_index (sender_sessions cfg) (disabled_until w)
         (mono_select o) perma_blocked (send_mode cfg) (last_idx w)
         (shuffle o) = Exhausted) →
  ∃ w', process_recipient cfg perma_blocked fl o username w c = Some (w', c)
        ∧ (∀ pre post,
             load (files w) (file_path fl) = pre ++ username :: post →
             load (files w') (file_path fl) = pre ++ post ++ [username])
        ∧ (username ∉ load (files w) (file_path fl) → files w' = files w)
        ∧ outbox w' = outbox w ∧ send_log w' = send_log w
        ∧ ledger w' = ledger w ∧ sent_hist w' = sent_hist w
        ∧ disabled_until w' = disabled_until w ∧ last_idx w' = last_idx w.
Proof.
  intros Hv Hwhy. exists (requeue w fl username).
  split; [by apply process_recipient_deferred|].
  split; [|split; [|done]].
  - intros pre post E. unfold requeue, load in *. cbn [files with_files].
    apply moved_queue; [done|].
    pose proof (read_lines_unique_NoDup (files w) (file_path fl)) as Hn.
    rewrite E in Hn. apply NoDup_app in Hn as (_ & Hpre & _).
    intros Hin. apply (Hpre _ Hin). by left.
  - intros Hout. unfold requeue, load in *. cbn [files with_files].
    by rewrite move_line_to_end_atomic_absent.
Qed.

Lemma deferred_recipient_requeued_witness :
  is_valid_tg_username_recipient (normalize_recipient "@alice_x") = true
  ∧ (within_history_window (sent_hist demo_world) (normalize_recipient "@alice_x")
       (message_key_for (flow_name demo_flow) (template_name demo_flow))
       (cooldown_days demo_config) (wall_check (demo_oracle Delivered))
     = Some false
     ∧ choose_sender_index (sender_sessions demo_config)
         (disabled_until demo_world) (mono_select (demo_oracle Delivered))
         {[ "s1"; "s2" ]} (send_mode demo_config) (last_idx demo_world)
         (shuffle (demo_oracle Delivered)) = Exhausted)
  ∧ ∃ w', process_recipient demo_config {[ "s1"; "s2" ]} demo_flow
            (demo_oracle Delivered) "@alice_x" demo_world ∅ = Some (w', ∅)
          ∧ load (files w') "q" = ["@bobby"; "@alice_x"].
Proof.
  assert (is_valid_tg_username_recipient (normalize_recipient "@alice_x") = true)
    as H1 by (by vm_compute).
  assert (within_history_window (sent_hist demo_world)
            (normalize_recipient "@alice_x")
            (message_key_for (flow_name demo_flow) (template_name demo_flow))
            (cooldown_days demo_config) (wall_check (demo_oracle Delivered))
          = Some false
          ∧ choose_sender_index (sender_sessions demo_config)
              (disabled_until demo_world) (mono_select (demo_oracle Delivered))
              {[ "s1"; "s2" ]} (send_mode demo_config) (last_idx demo_world)
              (shuffle (demo_oracle Delivered)) = Exhausted) as H2.
  { split; by vm_compute. }
  split; [exact H1|]. split; [exact H2|].
  destruct (deferred_recipient_requeued demo_config {[ "s1"; "s2" ]} demo_flow
              (demo_oracle Delivered) "@alice_x" demo_world ∅ H1
              (or_intror H2)) as (w' & Hw' & Hmove & _).
  exists w'. split; [done|].
  apply (Hmove [] ["@bobby"]). by vm_compute.
Defined.

(** X7.  A delivered send takes the recipient out of the queue, the other
    entries keeping their order, moves the cursor to the position of the
    session that sent, and adds one to the counter of that session only. *)
Theorem delivered_recipient_unqueued (cfg : config)
    (perma_blocked : gset string) (fl : flow) (o : oracle)
    (username : string) (w : world) (c : gmap string Z) (s : string) :
  reaches_send cfg perma_blocked fl o username w s →
  (count_of c s < 2)%Z → answer o = Delivered →
  ∃ w' c',
    process_recipient cfg perma_blocked fl o username w c = Some (w', c')
    ∧ load (files w') (file_path fl)
      = filter (λ l, l ≠ username) (load (files w) (file_path fl))
    ∧ (username ∉ load (files w') (file_path fl))
    ∧ session_at (sender_sessions cfg) (last_idx w') = Some s
    ∧ choose_sender_index (sender_sessions cfg) (disabled_until w)
        (mono_select o) perma_blocked (send_mode cfg) (last_idx w)
        (shuffle o) = Picked (last_idx w')
    ∧ count_of c' s = (count_of c s + 1)%Z
    ∧ ∀ s', s' ≠ s → count_of c' s' = count_of c s'.
Proof.
  intros (Hv & Hwin & idx & Hpick & Hs) Hcount Ha.
  eexists _, _. split.
  { unfold process_recipient. rewrite Hv, Hwin. simpl. rewrite Hpick, Hs, Ha.
    rewrite send_one_message_delivered by done. reflexivity. }
  split; [apply removed_queue|]. split.
  { change (username ∉ read_lines_unique
              (remove_username_from_file_atomic (files w) (file_path fl)
                 username) (file_path fl)).
    rewrite removed_queue, list_elem_of_filter. tauto. }
  split; [exact Hs|]. split; [exact Hpick|].
  split; [apply count_of_insert_eq|].
  intros s' Hne. by apply count_of_insert_ne.
Qed.

Lemma delivered_recipient_unqueued_witness :
  reaches_send demo_config ∅ demo_flow (demo_oracle Delivered) "@alice_x"
    demo_world "s1"
  ∧ (count_of ∅ "s1" < 2)%Z
  ∧ ∃ w' c', process_recipient demo_config ∅ demo_flow (demo_oracle Delivered)
               "@alice_x" demo_world ∅ = Some (w', c')
             ∧ ("@alice_x" ∉ load (files w') (file_path demo_flow))
             ∧ count_of c' "s1" = 1%Z.
Proof.
  assert (count_of ∅ "s1" < 2)%Z as Hc by (by vm_compute).
  split; [apply demo_reaches|]. split; [exact Hc|].
  destruct (delivered_recipient_unqueued demo_config ∅ demo_flow
              (demo_oracle Delivered) "@alice_x" demo_world ∅ "s1"
              (demo_reaches _) Hc eq_refl)
    as (w' & c' & Hw' & _ & Hout & _ & _ & Hcount & _).
  exists w', c'. by repeat split.
Defined.

(** ** Whole runs of a flow *)


Lemma demo_run :
  ∃ w' c', process_all demo_config ∅ demo_flow demo_turns demo_world ∅
           = Some (w', c').
Proof.
  destruct (process_all demo_config ∅ demo_flow demo_turns demo_world ∅)
    as [[w' c']|] eqn:E; [by eauto|]. by vm_compute in E.
Qed.


(** X9.  Over a run, the send log and the ledger only grow at the end, and
    they grow together: the number of log rows with result "OK" that were
    added, the number of ledger entries that were added and the number of
    calls of the transport that were delivered are the same. *)
Theorem run_logs_every_delivery (cfg : config) (perma_blocked : gset string)
    (fl : flow) (turns : list (string * oracle)) (w w' : world)
    (c c' : gmap string Z) :
  process_all cfg perma_blocked fl turns w c = Some (w', c') →
  (∃ k, deliveries (outbox w') = (deliveries (outbox w) + k)%nat
        ∧ ok_rows (send_log w') = (ok_rows (send_log w) + k)%nat
        ∧ ledger_entries (ledger w') = (ledger_entries (ledger w) + k)%nat)
  ∧ default [] (send_log w) `prefix_of` default [] (send_log w')
  ∧ default [] (ledger w) `prefix_of` default [] (ledger w')
  ∧ outbox w `prefix_of` outbox w'.
Proof.
  intros Hrun. destruct (process_all_evolves _ _ _ _ _ _ _ _ Hrun)
    as (_ & _ & Hk & Hl & Hg & Hb & _).
  done.
Qed.

Lemma run_logs_every_delivery_witness :
  ∃ w' c', process_all demo_config ∅ demo_flow demo_turns demo_world ∅
           = Some (w', c')
           ∧ outbox demo_world `prefix_of` outbox w'.
Proof.
  destruct demo_run as (w' & c' & E). exists w', c'. split; [exact E|].
  exact (proj2 (proj2 (proj2 (run_logs_every_delivery _ _ _ _ _ _ _ _ E)))).
Defined.

Example demo_run_tally :
  match process_all demo_config ∅ demo_flow demo_turns demo_world ∅ with
  | Some (w', _) =>
      deliveries (outbox w') = 2%nat ∧ ok_rows (send_log w') = 2%nat
      ∧ ledger_entries (ledger w') = 2%nat ∧ length (outbox w') = 3%nat
      ∧ load (files w') "q" = []
  | None => False
  end.
Proof. vm_compute. repeat split; reflexivity. Qed.

Lemma send_one_message_outbox (w : world) (c : gmap string Z) (s u : string)
    (now_ts jit : Q) (a : reply) :
  outbox (send_one_message w c s u now_ts jit a).1.2 = outbox w
  ∨ outbox (send_one_message w c s u now_ts jit a).1.2
    = outbox w ++ [(s, u, a)].
Proof.
  destruct (Z.le_gt_cases 2 (count_of c s)) as [Hcap|Hlow].
  - left. by rewrite send_one_message_capped.
  - right. destruct (decide (a = Delivered)) as [->|Ha].
    + by rewrite send_one_message_delivered by lia.
    + destruct (send_one_message_failed w c s u now_ts jit a)
        as (w' & -> & Hout & _); [lia|done|done].
Qed.

Lemma process_recipient_calls (cfg : config) (perma_blocked : gset string)
    (fl : flow) (o : oracle) (username : string) (w w' : world)
    (c c' : gmap string Z) (call : string * string * reply) :
  process_recipient cfg perma_blocked fl o username w c = Some (w', c') →
  call ∈ outbox w' →
  call ∈ outbox w
  ∨ (call.1.1 ∈ sender_sessions cfg ∧ (call.1.1 ∉ perma_blocked)
     ∧ is_valid_tg_username_recipient call.1.2 = true).
Proof.
  intros Hstep.
  destruct (process_recipient_cases _ _ _ _ _ _ _ _ _ Hstep)
    as [[-> _]|[[-> _]|(idx & s & Hs & Hv & Hpick & -> & _)]];
    [by left|by left|].
  destruct (settle_keeps fl o username (normalize_recipient username) s
              (send_one_message (with_last_idx w idx) c s
                 (normalize_recipient username) (mono_send o) (jitter o)
                 (answer o)).1.1
              (send_one_message (with_last_idx w idx) c s
                 (normalize_recipient username) (mono_send o) (jitter o)
                 (answer o)).1.2) as (-> & _).
  destruct (send_one_message_outbox (with_last_idx w idx) c s
              (normalize_recipient username) (mono_send o) (jitter o)
              (answer o)) as [-> | ->]; [by left|].
  intros [Hin|Hin%list_elem_of_singleton]%elem_of_app; [by left|].
  right. subst call. cbn [fst snd].
  apply picked_available in Hpick. unfold available_at in Hpick.
  rewrite Hs in Hpick. apply is_available_spec in Hpick as [Hperma _].
  apply session_at_Some in Hs as [_ Hin]. done.
Qed.

(** X10.  Every call of the transport that a run makes goes through a
    session of the sender list that is not on the deny-list, to a recipient
    of the form [@] and 5 to 32 letters, digits or underscores; a session
    outside the sender list never gets a cooldown; and the cursor is left
    where it was or on a position of the sender list. *)
Theorem run_calls_are_sound (cfg : config) (perma_blocked : gset string)
    (fl : flow) (turns : list (string * oracle)) (w w' : world)
    (c c' : gmap string Z) :
  process_all cfg perma_blocked fl turns w c = Some (w', c') →
  (∀ call, call ∈ outbox w' →
     call ∈ outbox w
     ∨ (call.1.1 ∈ sender_sessions cfg ∧ (call.1.1 ∉ perma_blocked)
        ∧ is_valid_tg_username_recipient call.1.2 = true))
  ∧ (∀ s, s ∉ sender_sessions cfg →
          disabled_until w' !! s = disabled_until w !! s)
  ∧ (last_idx w' = last_idx w
     ∨ (0 ≤ last_idx w' < Z.of_nat (length (sender_sessions cfg)))%Z).
Proof.
  intros Hrun. split.
  - revert w c Hrun.
    induction turns as [|[username o] turns IH]; intros w c.
    + intros [= <- <-] call Hin. by left.
    + simpl.
      destruct (process_recipient _ _ _ _ _ _ _) as [[w1 c1]|] eqn:E; [|done].
      intros Hrest call Hin.
      destruct (IH _ _ Hrest call Hin) as [Hold|Hnew]; [|by right].
      by apply (process_recipient_calls _ _ _ _ _ _ _ _ _ _ E).
  - destruct (process_all_evolves _ _ _ _ _ _ _ _ Hrun)
      as (_ & _ & _ & _ & _ & _ & Hcool & Hidx & _).
    done.
Qed.

Lemma run_calls_are_sound_witness :
  ∃ w' c', process_all demo_config ∅ demo_flow demo_turns demo_world ∅
           = Some (w', c')
           ∧ (last_idx w' = last_idx demo_world
              ∨ (0 ≤ last_idx w' < Z.of_nat (length (sender_sessions demo_config)))%Z).
Proof.
  destruct demo_run as (w' & c' & E). exists w', c'. split; [exact E|].
  exact (proj2 (proj2 (run_calls_are_sound _ _ _ _ _ _ _ _ E))).
Defined.

(** *** Runs that cannot raise *)







(** ** The ledger as a whole *)

Lemma foldl_load_row_lookup (rows : list ledger_row)
    (h : gmap hist_key hist_val) (u m : string) :
  foldl load_row h rows !! PairKey u m
  = match last_entry rows u m with
    | Some t => Some (Stamp t)
    | None => h !! PairKey u m
    end.
Proof.
  revert h. induction rows as [|row rows IH]; intros h; simpl; [done|].
  rewrite IH. destruct (last_entry rows u m) as [t|]; [done|].
  destruct row as [|ts u' m'|]; simpl; [done| |done].
  case_decide as Hum.
  - destruct Hum as [-> ->]. by rewrite lookup_insert_eq.
  - rewrite lookup_insert_ne; [done|]. intros [= -> ->]. by apply Hum.
Qed.

Lemma foldl_load_row_name (rows : list ledger_row)
    (h : gmap hist_key hist_val) (n : string) :
  foldl load_row h rows !! NameKey n = h !! NameKey n.
Proof.
  revert h. induction rows as [|row rows IH]; intros h; simpl; [done|].
  rewrite IH. destruct row; simpl; [done| |done].
  by rewrite lookup_insert_ne.
Qed.

Lemma foldl_load_row_entries (rows : list ledger_row)
    (h : gmap hist_key hist_val) :
  foldl load_row h (filter (λ row, is_entry row = true) rows)
  = foldl load_row h rows.
Proof.
  revert h. induction rows as [|row rows IH]; intros h; [done|].
  destruct row as [|ts u m|].
  - rewrite filter_cons_False by done. simpl. apply IH.
  - rewrite filter_cons_True by done. simpl. apply IH.
  - rewrite filter_cons_False by done. simpl. apply IH.
Qed.

(** X12.  [load_sent_history] keeps, for each pair (recipient, message
    key), the timestamp of the last row of the ledger that records it;
    the first row of the file is never read, whatever it is, and rows that
    cannot be parsed make no difference; the map holds nothing under a bare
    recipient name. *)
Theorem ledger_last_entry_wins (rows : list ledger_row) (u m : string) :
  load_sent_history (Some rows) !! PairKey u m
  = Stamp <$> last_entry (tail rows) u m
  ∧ (∀ n, load_sent_history (Some rows) !! NameKey n = None)
  ∧ (∀ first other,
       load_sent_history (Some (first :: rows))
       = load_sent_history (Some (other :: rows)))
  ∧ (∀ first,
       load_sent_history
         (Some (first :: filter (λ row, is_entry row = true) rows))
       = load_sent_history (Some (first :: rows))).
Proof.
  split; [|split; [|split]].
  - simpl. rewrite foldl_load_row_lookup, lookup_empty.
    by destruct (last_entry (tail rows) u m).
  - intros n. simpl. by rewrite foldl_load_row_name, lookup_empty.
  - done.
  - intros first. simpl. apply foldl_load_row_entries.
Qed.

Example ledger_sample :
  let hist :=
    load_sent_history
      (Some [Entry 1 "@alice_x" "A:t"; Entry 2 "@bobby" "A:t"; BadRow;
             Entry 5 "@bobby" "A:t"; HeaderRow; Entry 3 "@bobby" "B:t"]) in
  hist !! PairKey "@bobby" "A:t" = Some (Stamp 5)
  ∧ hist !! PairKey "@bobby" "B:t" = Some (Stamp 3)
  ∧ hist !! PairKey "@alice_x" "A:t" = None.
Proof. vm_compute. repeat split; reflexivity. Qed.


(** ** The selector in its other modes, the deny-list, the started sessions *)

Lemma scan_order_first (sender_sessions : list string)
    (disabled_until : gmap string Q) (now_ts : Q)
    (perma_blocked : gset string) (order : list nat) (i : Z) :
  Forall (λ k, (k < length sender_sessions)%nat) order →
  scan_order sender_sessions disabled_until now_ts perma_blocked order
  = Picked i ↔
  ∃ pre post k,
    order = pre ++ k :: post ∧ i = Z.of_nat k
    ∧ available_at sender_sessions disabled_until now_ts perma_blocked i = true
    ∧ Forall (λ j, available_at sender_sessions disabled_until now_ts
                     perma_blocked (Z.of_nat j) = false) pre.
Proof.
  induction 1 as [|k order Hk Horder IH]; simpl.
  - split; [done|]. intros (pre & post & k & E & _). by destruct pre.
  - destruct (lookup_lt_is_Some_2 sender_sessions k Hk) as [sess Hsess].
    rewrite Hsess.
    assert (available_at sender_sessions disabled_until now_ts perma_blocked
              (Z.of_nat k)
            = is_available disabled_until now_ts perma_blocked sess) as Hat.
    { unfold available_at, session_at.
      destruct (Z.ltb_spec (Z.of_nat k) 0); [lia|]. by rewrite Nat2Z.id, Hsess. }
    destruct (is_available _ _ _ sess) eqn:Hav.
    + split.
      * intros [= <-]. exists [], order, k. by repeat split.
      * intros (pre & post & k' & E & -> & Hi & Hpre).
        destruct pre as [|j pre]; simpl in E.
        -- by injection E as <- _.
        -- injection E as <- _. apply Forall_cons in Hpre as [Hj _].
           by rewrite Hat in Hj.
    + rewrite IH. split.
      * intros (pre & post & k' & -> & -> & Hi & Hpre).
        exists (k :: pre), post, k'. repeat split; [done|].
        by apply Forall_cons.
      * intros (pre & post & k' & E & -> & Hi & Hpre).
        destruct pre as [|j pre]; simpl in E.
        -- injection E as <- _. by rewrite Hat in Hi.
        -- injection E as <- ->. apply Forall_cons in Hpre as [_ Hpre].
           by exists pre, post, k'.
Qed.

(** X14.  The other two modes of [choose_sender_index].  With no session
    configured every mode returns [None].  In the mode [single_account] the
    answer is index 0 when the first session is available and [None]
    otherwise, whatever the others are.  In the mode [random] the answer is
    the first index of the shuffled order whose session is available, and
    [None] exactly when no session is available. *)
Theorem selection_by_mode (sender_sessions : list string)
    (disabled_until : gmap string Q) (now_ts : Q)
    (perma_blocked : gset string) (last_index : Z) (order : list nat) :
  order ≡ₚ seq 0 (length sender_sessions) →
  let choose := choose_sender_index sender_sessions disabled_until now_ts
                  perma_blocked in
  let avail_at := available_at sender_sessions disabled_until now_ts
                    perma_blocked in
  (sender_sessions = [] → ∀ mode, choose mode last_index order = Exhausted)
  ∧ (sender_sessions ≠ [] →
     choose "single_account" last_index order
     = if avail_at 0%Z then Picked 0 else Exhausted)
  ∧ (∀ i, choose "random" last_index order = Picked i ↔
       ∃ pre post k,
         order = pre ++ k :: post ∧ i = Z.of_nat k ∧ avail_at i = true
         ∧ Forall (λ j, avail_at (Z.of_nat j) = false) pre)
  ∧ (choose "random" last_index order = Exhausted ↔
     ∀ i, (0 ≤ i < Z.of_nat (length sender_sessions))%Z → avail_at i = false).
Proof.
  intros Hperm choose avail_at. subst choose avail_at.
  assert (Forall (λ k, (k < length sender_sessions)%nat) order) as Hrange.
  { rewrite Hperm. apply Forall_seq. intros j Hj. lia. }
  split; [|split; [|split]].
  - intros -> mode. done.
  - intros Hne. destruct sender_sessions as [|s0 rest]; [done|].
    unfold choose_sender_index, available_at. done.
  - intros i. unfold choose_sender_index.
    destruct (Nat.eqb_spec (length sender_sessions) 0) as [E|_].
    + split; [done|]. intros (pre & post & k & -> & _).
      rewrite E in Hperm. simpl in Hperm.
      apply Permutation_nil_r in Hperm. by destruct pre.
    + rewrite bool_decide_eq_false_2 by done.
      rewrite bool_decide_eq_true_2 by done. by apply scan_order_first.
  - unfold choose_sender_index.
    destruct (Nat.eqb_spec (length sender_sessions) 0) as [E|_].
    + split; [|done]. intros _ i Hi. lia.
    + rewrite bool_decide_eq_false_2 by done.
      rewrite bool_decide_eq_true_2 by done.
      pose proof (scan_order_spec sender_sessions disabled_until now_ts
                    perma_blocked order Hrange) as Hspec.
      destruct (scan_order _ _ _ _ order) as [j| |] eqn:Es; [| |done].
      * split; [done|]. intros Hnone. destruct Hspec as [Hav _].
        rewrite Hnone in Hav; [done|].
        by apply (available_at_in_range sender_sessions disabled_until
                    now_ts perma_blocked).
      * split; [|done]. intros _ i Hi.
        replace i with (Z.of_nat (Z.to_nat i)) by lia. apply Hspec.
        rewrite Hperm. apply elem_of_seq. lia.
Qed.

Lemma selection_by_mode_witness :
  [1; 0]%nat ≡ₚ seq 0 (length ["s1"; "s2"])
  ∧ choose_sender_index ["s1"; "s2"] {[ "s1" := 50%Q ]} 10%Q ∅
      "single_account" 0 [1; 0]%nat = Exhausted.
Proof.
  assert ([1; 0]%nat ≡ₚ seq 0 (length ["s1"; "s2"])) as H by apply perm_swap.
  split; [exact H|].
  destruct (selection_by_mode ["s1"; "s2"] {[ "s1" := 50%Q ]} 10%Q ∅ 0
              [1; 0]%nat H) as (_ & -> & _); [done|].
  by vm_compute.
Defined.

Lemma load_permanent_blocked_elem (fs : gmap string string) (path s : string) :
  s ∈ load_permanent_blocked fs path ↔
  s ∈ file_lines (default "" (fs !! path)).
Proof.
  unfold load_permanent_blocked.
  assert (∀ ls (acc : gset string),
            s ∈ foldl (λ blocked x, {[x]} ∪ blocked) acc ls ↔ s ∈ acc ∨ s ∈ ls)
    as Hfold.
  { induction ls as [|x ls IH]; intros acc; simpl.
    - rewrite elem_of_nil. tauto.
    - rewrite IH, elem_of_union, elem_of_singleton, elem_of_cons. tauto. }
  destruct (fs !! path) as [content|]; simpl.
  - rewrite Hfold, elem_of_empty. tauto.
  - rewrite file_lines_empty, elem_of_empty, elem_of_nil. tauto.
Qed.

(** X15.  The deny-list that [load_permanent_blocked] returns holds exactly
    the stripped non-blank lines of the file, and nothing when the file is
    missing; with it, [choose_sender_index] never returns the index of a
    session whose name is such a line, in any mode and whatever the
    cooldowns are. *)
Theorem deny_listed_never_chosen (fs : gmap string string) (path : string)
    (sender_sessions : list string) (disabled_until : gmap string Q)
    (now_ts : Q) (mode : string) (last_index : Z) (order : list nat) :
  (∀ s, s ∈ load_permanent_blocked fs path ↔
        s ∈ file_lines (default "" (fs !! path)))
  ∧ (fs !! path = None → load_permanent_blocked fs path = ∅)
  ∧ ∀ i s,
      choose_sender_index sender_sessions disabled_until now_ts
        (load_permanent_blocked fs path) mode last_index order = Picked i →
      session_at sender_sessions i = Some s →
      s ∉ file_lines (default "" (fs !! path)).
Proof.
  split; [intros s; apply load_permanent_blocked_elem|].
  split. { intros E. unfold load_permanent_blocked. by rewrite E. }
  intros i s Hpick Hs. apply picked_available in Hpick.
  unfold available_at in Hpick. rewrite Hs in Hpick.
  apply is_available_spec in Hpick as [Hperma _].
  by rewrite <- load_permanent_blocked_elem.
Qed.

Example deny_list_sample :
  let fs : gmap string string :=
    {[ "blocked_senders.txt" := " s1 " +:+ nl +:+ nl +:+ "s3" +:+ nl ]} in
  load_permanent_blocked fs "blocked_senders.txt" = {[ "s1"; "s3" ]}
  ∧ choose_sender_index ["s1"; "s2"; "s3"] ∅ 10%Q
      (load_permanent_blocked fs "blocked_senders.txt")
      "round_robin" (-1) [] = Picked 1.
Proof. vm_compute. split; reflexivity. Qed.



Example started_sessions_sample :
  start_sessions ["s1"; "s2"; "s1"; "s3"]
    (λ s, negb (bool_decide (s = "s2"))) = Some ["s1"; "s3"]
  ∧ start_sessions ["s1"] (λ _, false) = None
  ∧ start_sessions [] (λ _, true) = None.
Proof. vm_compute. repeat split; reflexivity. Qed.

(** ** The forms of a recipient *)

Lemma word_char_plain (c : ascii) :
  is_word_char c = true →
  is_space c = false ∧ is_slash c = false
  ∧ c ≠ "@"%char ∧ c ≠ ":"%char.
Proof.
  destruct c as [[] [] [] [] [] [] [] []]; vm_compute;
    intros Hc; try discriminate Hc; repeat split; discriminate.
Qed.

Lemma all_chars_sapp (p : ascii → bool) (a b : string) :
  all_chars p (a +:+ b) = all_chars p a && all_chars p b.
Proof.
  induction a as [|c a IH]; [done|].
  rewrite sapp_cons. simpl. by rewrite IH, andb_assoc.
Qed.

Lemma strip_by_none (p : ascii → bool) (s : string) :
  all_chars (λ c, negb (p c)) s = true → strip_by p s = s.
Proof.
  intros Hs. unfold strip_by. rewrite lstrip_by_fixed.
  - by apply rstrip_by_none.
  - destruct s as [|c s]; simpl in *; [done|].
    apply andb_prop in Hs as [Hc _]. by apply negb_true_iff in Hc.
Qed.

Lemma rstrip_by_last (p : ascii → bool) (s : string) (c : ascii) :
  p c = true → rstrip_by p (s +:+ String c "") = rstrip_by p s.
Proof.
  intros Hc. induction s as [|d s IH].
  - simpl. by rewrite Hc.
  - rewrite sapp_cons. simpl. by rewrite IH.
Qed.

Lemma prefix_sapp (a b : string) : String.prefix a (a +:+ b) = true.
Proof.
  induction a as [|c a IH]; [by destruct b|].
  rewrite sapp_cons. simpl. by destruct (ascii_dec c c).
Qed.

Lemma prefix_all_chars (q : ascii → bool) (p s : string) :
  all_chars q s = true → String.prefix p s = true → all_chars q p = true.
Proof.
  revert s. induction p as [|a p IH]; intros s Hs Hp; [done|].
  destruct s as [|b s]; [done|]. cbn [String.prefix] in Hp.
  destruct (ascii_dec a b) as [->|]; [|done].
  simpl in *. apply andb_prop in Hs as [Hb Hs]. rewrite Hb. simpl.
  by apply (IH s).
Qed.

Lemma no_colon_not_link (s : string) :
  all_chars (λ c, negb (bool_decide (c = ":"%char))) s = true →
  String.prefix tme s = false.
Proof.
  intros Hs. destruct (String.prefix tme s) eqn:E; [|done].
  by pose proof (prefix_all_chars _ _ _ Hs E).
Qed.

Lemma no_colon_keeps (s : string) :
  all_chars (λ c, negb (bool_decide (c = ":"%char))) s = true →
  remove_all_from tme 0 s = s.
Proof.
  induction s as [|c s IH]; [done|]. intros Hs.
  cbn [remove_all_from]. rewrite (no_colon_not_link _ Hs).
  f_equal. apply IH. simpl in Hs.
  by apply andb_prop in Hs as [_ Hs].
Qed.

Lemma remove_all_from_skip (pat p s : string) :
  remove_all_from pat (String.length p) (p +:+ s) = remove_all_from pat 0 s.
Proof.
  induction p as [|c p IH]; [done|]. rewrite sapp_cons. simpl. apply IH.
Qed.

Lemma remove_link_head (s : string) :
  remove_all tme (tme +:+ s) = remove_all_from tme 0 s.
Proof.
  unfold remove_all.
  pose proof (prefix_sapp tme s) as Hp. unfold tme in *.
  rewrite sapp_cons in *. cbn [remove_all_from]. rewrite Hp.
  apply (remove_all_from_skip _ "ttps://t.me/").
Qed.

(** X17.  For a handle of at least 5 letters, digits and underscores,
    [normalize_recipient] maps each of the forms it documents (the bare
    handle, the handle behind an at sign, the link, also with a closing
    slash or with the at sign inside) to the at sign followed by the handle;
    [is_valid_tg_username_recipient] accepts that result exactly when the
    handle has at most 32 characters. *)
Theorem recipient_forms (h : string) :
  all_chars is_word_char h = true →
  (5 ≤ String.length h)%nat →
  let r := "@" +:+ h in
  normalize_recipient h = r
  ∧ normalize_recipient r = r
  ∧ normalize_recipient (tme +:+ h) = r
  ∧ normalize_recipient (tme +:+ h +:+ "/") = r
  ∧ normalize_recipient (tme +:+ r) = r
  ∧ is_valid_tg_username_recipient r
    = bool_decide (String.length h ≤ 32)%nat.
Proof.
  intros Hw Hlen r.
  assert (all_chars (λ c, negb (is_space c)) h = true) as Hsp.
  { revert Hw. apply all_chars_impl. intros c Hc.
    by destruct (word_char_plain c Hc) as (-> & _). }
  assert (all_chars (λ c, negb (is_slash c)) h = true) as Hsl.
  { revert Hw. apply all_chars_impl. intros c Hc.
    by destruct (word_char_plain c Hc) as (_ & -> & _). }
  assert (all_chars (λ c, negb (bool_decide (c = ":"%char))) h = true) as Hco.
  { revert Hw. apply all_chars_impl. intros c Hc.
    destruct (word_char_plain c Hc) as (_ & _ & _ & Hne).
    by rewrite bool_decide_eq_false_2. }
  assert (strip h = h) as Hstrip by by apply strip_by_none.
  assert (∃ c h', h = String c h' ∧ c ≠ "@"%char) as (c & h' & Eh & Hc).
  { destruct h as [|c h']; [simpl in Hlen; lia|]. exists c, h'.
    split; [done|]. simpl in Hw. apply andb_prop in Hw as [Hw _].
    by destruct (word_char_plain c Hw) as (_ & _ & ? & _). }
  assert (startswith "@" h = false) as Hat.
  { rewrite Eh. unfold startswith. cbn [String.prefix].
    destruct (ascii_dec "@" c) as [<-|]; [done|]. done. }
  assert (is_raw_username h = true) as Hraw.
  { unfold is_raw_username. rewrite Hw. cbn [andb]. by apply Nat.leb_le. }
  assert (normalize_recipient h = r) as Hplain.
  { unfold normalize_recipient. rewrite Hstrip.
    rewrite Eh at 1. unfold startswith in *.
    rewrite (no_colon_not_link _ Hco), Hat, Hraw. done. }
  assert (∀ x, all_chars (λ c, negb (is_space c)) x = true →
               all_chars (λ c, negb (bool_decide (c = ":"%char))) x = true →
               normalize_recipient (tme +:+ x)
               = let s := strip_by is_slash x in
                 if startswith "@" s then s
                 else if is_raw_username s then "@" +:+ s else s) as Hlink.
  { intros x Hx1 Hx2. unfold normalize_recipient.
    assert (strip (tme +:+ x) = tme +:+ x) as ->.
    { apply strip_by_none. rewrite all_chars_sapp, Hx1. done. }
    unfold tme at 1. rewrite sapp_cons. cbv iota.
    change (String "h" ("ttps://t.me/" +:+ x)) with (tme +:+ x).
    unfold startswith at 1. rewrite prefix_sapp.
    rewrite remove_link_head, (no_colon_keeps _ Hx2).
    assert (strip x = x) as -> by by apply strip_by_none.
    done. }
  split; [done|]. split; [|split; [|split; [|split]]].
  - unfold normalize_recipient.
    assert (strip r = r) as ->.
    { apply strip_by_none. subst r. by rewrite all_chars_sapp, Hsp. }
    subst r. rewrite sapp_cons, sapp_nil_l. cbv iota.
    assert (startswith tme (String "@" h) = false) as -> by done.
    assert (startswith "@" (String "@" h) = true) as -> by by destruct h.
    done.
  - rewrite (Hlink h Hsp Hco). simpl.
    rewrite (strip_by_none is_slash h Hsl), Hat, Hraw. done.
  - rewrite (Hlink (h +:+ "/")).
    + simpl. unfold strip_by.
      rewrite lstrip_by_fixed.
      2:{ rewrite Eh, sapp_cons. simpl. rewrite Eh in Hsl. simpl in Hsl.
          apply andb_prop in Hsl as [Hsl _]. by apply negb_true_iff in Hsl. }
      rewrite rstrip_by_last by done.
      rewrite (rstrip_by_none _ _ Hsl), Hat, Hraw. done.
    + by rewrite all_chars_sapp, Hsp.
    + by rewrite all_chars_sapp, Hco.
  - rewrite (Hlink r).
    + simpl. assert (strip_by is_slash r = r) as ->.
      { apply strip_by_none. subst r. by rewrite all_chars_sapp, Hsl. }
      assert (startswith "@" r = true) as -> by by destruct h.
      done.
    + subst r. by rewrite all_chars_sapp, Hsp.
    + subst r. by rewrite all_chars_sapp, Hco.
  - subst r. unfold is_valid_tg_username_recipient. rewrite sapp_cons.
    rewrite sapp_nil_l. unfold startswith. cbn [String.prefix negb].
    destruct (ascii_dec "@" "@"); [|done].
    assert (String.prefix "" h = true) as -> by by destruct h.
    cbn [negb String.length]. rewrite Hw, bool_decide_eq_true_2 by done.
    assert ((5 <=? String.length h)%nat = true) as -> by by apply Nat.leb_le.
    cbn [andb]. case_bool_decide as Hb.
    + by apply Nat.leb_le.
    + apply Nat.leb_gt. lia.
Qed.

Lemma recipient_forms_witness :
  all_chars is_word_char "alice_7" = true
  ∧ (5 ≤ String.length "alice_7")%nat
  ∧ normalize_recipient "https://t.me/alice_7/" = "@alice_7".
Proof.
  assert (all_chars is_word_char "alice_7" = true) as H1 by reflexivity.
  assert (5 ≤ String.length "alice_7")%nat as H2 by (simpl; lia).
  split; [exact H1|]. split; [exact H2|].
  exact (proj1 (proj2 (proj2 (proj2 (recipient_forms "alice_7" H1 H2))))).
Defined.

(** [normalize_recipient] is not idempotent: an occurrence of the link
    prefix that the removal of the others puts together stays in the
    result, and a second call changes it again. *)
Example normalize_not_idempotent :
  let s := "https://t.https://t.me/me/alice_7" in
  normalize_recipient ("https://t.me/" +:+ s) = "https://t.me/alice_7"
  ∧ normalize_recipient "https://t.me/alice_7" = "@alice_7".
Proof. vm_compute. split; reflexivity. Qed.

(** ** The listener: sections and keywords *)

Import Listener.

Section Matching.
Context {char : Type} `{Countable char}.
Variable lower : list char → list char.

Lemma starts_with_spec (k t : list char) :
  starts_with k t = true ↔ ∃ post, t = k ++ post.
Proof.
  revert t. induction k as [|a k IH]; intros t; simpl.
  - split; [by exists t|done].
  - destruct t as [|b t].
    + split; [done|]. by intros (post & ?).
    + rewrite andb_true_iff, bool_decide_eq_true, IH. split.
      * intros (-> & post & ->). by exists post.
      * intros (post & [= -> ->]). split; [done|by exists post].
Qed.

Lemma is_infix_spec (k t : list char) :
  is_infix k t = true ↔ ∃ pre post, t = pre ++ k ++ post.
Proof.
  induction t as [|b t IH]; simpl.
  - rewrite starts_with_spec. split.
    + intros (post & E). by exists [], post.
    + intros (pre & post & E). symmetry in E.
      apply app_eq_nil in E as [-> E]. by exists post.
  - rewrite orb_true_iff, starts_with_spec, IH. split.
    + intros [(post & ->)|(pre & post & ->)].
      * by exists [], post.
      * by exists (b :: pre), post.
    + intros (pre & post & E). destruct pre as [|x pre]; simpl in E.
      * left. by exists post.
      * injection E as -> ->. right. by exists pre, post.
Qed.

Lemma scan_keywords_spec (ci : bool) (t : list char)
    (kws : list (list char)) :
  scan_keywords lower ci t kws = true ↔
  ∃ kw pre post,
    kw ∈ kws ∧ kw ≠ []
    ∧ (if ci then lower kw else kw) ≠ []
    ∧ t = pre ++ (if ci then lower kw else kw) ++ post.
Proof.
  induction kws as [|kw kws IH]; simpl.
  - split; [done|]. intros (kw & pre & post & Hin & _).
    by apply elem_of_nil in Hin.
  - assert ((bool_decide ((if ci then lower kw else kw) ≠ [])
             && is_infix (if ci then lower kw else kw) t) = true
            ↔ (if ci then lower kw else kw) ≠ []
              ∧ ∃ pre post, t = pre ++ (if ci then lower kw else kw) ++ post)
      as Hhit.
    { by rewrite andb_true_iff, bool_decide_eq_true, is_infix_spec. }
    destruct kw as [|a kw'] eqn:Ekw.
    + rewrite IH. split.
      * intros (kw0 & pre & post & Hin & Hrest).
        exists kw0, pre, post. split; [by right|done].
      * intros (kw0 & pre & post & [->|Hin]%elem_of_cons & Hne & Hrest);
          [done|]. by exists kw0, pre, post.
    + rewrite <- Ekw in *.
      destruct (bool_decide _ && is_infix _ t) eqn:Eh.
      * split; [intros _|done].
        destruct (proj1 Hhit eq_refl) as (Hne & pre & post & Et).
        exists kw, pre, post. split; [by left|]. split; [by rewrite Ekw|done].
      * rewrite IH. split.
        -- intros (kw0 & pre & post & Hin & Hrest).
           exists kw0, pre, post. split; [by right|done].
        -- intros (kw0 & pre & post & [->|Hin]%elem_of_cons & Hne & Hk & Et).
           ++ assert (false = true) as Habs; [|done].
              apply Hhit. split; [done|]. by exists pre, post.
           ++ by exists kw0, pre, post.
Qed.

Lemma scan_sections_spec (ci : bool) (t : list char)
    (sections : list (list char * list (list char)))
    (matched : list (list char)) :
  scan_sections lower ci t sections matched
  = matched
    ++ (filter (λ p, scan_keywords lower ci t p.2 = true) sections).*1.
Proof.
  revert matched. induction sections as [|[sec_name kws] rest IH];
    intros matched; simpl.
  - by rewrite app_nil_r.
  - rewrite IH. destruct (scan_keywords lower ci t kws) eqn:E.
    + rewrite filter_cons_True by done. by rewrite <- app_assoc.
    + rewrite filter_cons_False; [done|]. simpl. by rewrite E.
Qed.

Lemma dedupe_loop_spec (names : list (list char)) (seen : gset (list char))
    (out : list (list char)) :
  ∃ l, dedupe_loop names seen out = out ++ l
       ∧ sublist l names ∧ NoDup l
       ∧ ∀ x, x ∈ l ↔ x ∈ names ∧ x ∉ seen.
Proof.
  revert seen out. induction names as [|s rest IH]; intros seen out; simpl.
  - exists []. rewrite app_nil_r. split; [done|]. split; [done|].
    split; [constructor|]. intros x. rewrite elem_of_nil. tauto.
  - case_decide as Hs.
    + destruct (IH seen out) as (l & -> & Hsub & Hnd & Hl).
      exists l. split; [done|]. split; [by apply sublist_cons|].
      split; [done|]. intros x. rewrite Hl, elem_of_cons.
      split; [tauto|]. intros [[->|Hx] Hn]; [done|tauto].
    + destruct (IH ({[s]} ∪ seen) (out ++ [s])) as (l & -> & Hsub & Hnd & Hl).
      exists (s :: l). rewrite <- app_assoc. split; [done|].
      split; [by apply sublist_skip|]. split.
      * apply NoDup_cons. split; [|done]. rewrite Hl.
        rewrite not_elem_of_union, not_elem_of_singleton. tauto.
      * intros x. rewrite !elem_of_cons, Hl.
        rewrite not_elem_of_union, not_elem_of_singleton.
        destruct (decide (x = s)) as [->|Hne]; tauto.
Qed.

(** X18.  [match_manual_sections] returns each section name once, in the
    order of the configured sections, and a name is returned exactly when
    one of the keywords of a section of that name is not empty, stays
    non-empty once lower-cased, and occurs in the text as a substring; an
    empty text matches no section. *)
Theorem matched_sections_spec (case_insensitive : bool) (text : list char)
    (sections : list (list char * list (list char))) :
  let fold x := if case_insensitive then lower x else x in
  let out := match_manual_sections lower case_insensitive text sections in
  NoDup out
  ∧ sublist out sections.*1
  ∧ (text = [] → out = [])
  ∧ (text ≠ [] →
     ∀ s, s ∈ out ↔
       ∃ kws kw pre post,
         (s, kws) ∈ sections ∧ kw ∈ kws ∧ kw ≠ [] ∧ fold kw ≠ []
         ∧ fold text = pre ++ fold kw ++ post).
Proof.
  intros fold out. subst fold out.
  assert (match_manual_sections lower case_insensitive text sections
          = match text with
            | [] => []
            | _ => dedupe_loop
                     (scan_sections lower case_insensitive
                        (if case_insensitive then lower text else text)
                        sections []) ∅ []
            end) as ->.
  { unfold match_manual_sections. destruct text; [done|].
    by destruct sections. }
  destruct text as [|c text'] eqn:Et.
  { split; [constructor|]. split; [apply sublist_nil_l|]. done. }
  rewrite <- Et.
  destruct (dedupe_loop_spec
              (scan_sections lower case_insensitive
                 (if case_insensitive then lower text else text) sections [])
              ∅ []) as (l & -> & Hsub & Hnd & Hl).
  rewrite scan_sections_spec in Hsub, Hl. simpl in *.
  split; [done|]. split.
  { etrans; [exact Hsub|]. apply fmap_sublist, sublist_filter. }
  split; [intros E; by rewrite E in Et|]. intros _ s. rewrite Hl.
  rewrite list_elem_of_fmap. split.
  - intros [([s' kws] & -> & [Hhit Hin]%list_elem_of_filter) _].
    simpl in *. apply scan_keywords_spec in Hhit
      as (kw & pre & post & Hkw & Hne & Hk & Ht).
    by exists kws, kw, pre, post.
  - intros (kws & kw & pre & post & Hin & Hkw & Hne & Hk & Ht).
    split; [|apply not_elem_of_empty]. exists (s, kws). split; [done|].
    apply list_elem_of_filter. split; [|done]. simpl.
    apply scan_keywords_spec. by exists kw, pre, post.
Qed.

End Matching.

Lemma first_with_key {A K : Type} `{EqDecision K} (key : A → K)
    (l : list A) (p : A) :
  p ∈ l →
  ∃ pre q post, l = pre ++ q :: post ∧ key q = key p
                ∧ ∀ r, r ∈ pre → key r ≠ key p.
Proof.
  induction l as [|x l IH]; [by intros ?%elem_of_nil|].
  intros Hp. destruct (decide (key x = key p)) as [E|Hne].
  - exists [], x, l. split; [done|]. split; [done|].
    by intros r ?%elem_of_nil.
  - apply elem_of_cons in Hp as [->|Hp]; [done|].
    destruct (IH Hp) as (pre & q & post & -> & Eq & Hpre).
    exists (x :: pre), q, post. split; [done|]. split; [done|].
    intros r [->|Hr]%elem_of_cons; [done|by apply Hpre].
Qed.

Section Merging.
Context {char : Type} `{Countable char}.
Variable strip : list char → list char.

Lemma merge_loop_spec (secs : list (list char * list (list char)))
    (seen : gset (list char))
    (merged : list (list char * list (list char))) :
  ∃ m, merge_loop strip secs seen merged = merged ++ m
       ∧ sublist m secs
       ∧ NoDup ((λ p, strip p.1) <$> m)
       ∧ ∀ q, q ∈ m ↔
           ∃ pre post, secs = pre ++ q :: post
             ∧ strip q.1 ≠ [] ∧ (strip q.1 ∉ seen)
             ∧ ∀ p, p ∈ pre → strip p.1 ≠ strip q.1.
Proof.
  revert seen merged.
  induction secs as [|[sec_name kws] rest IH]; intros seen merged; simpl.
  - exists []. rewrite app_nil_r. split; [done|]. split; [done|].
    split; [constructor|]. intros q. split.
    + by intros ?%elem_of_nil.
    + intros (pre & post & E & _). by destruct pre.
  - destruct (bool_decide (strip sec_name = [])
              || bool_decide (strip sec_name ∈ seen)) eqn:Eskip.
    + apply orb_true_iff in Eskip.
      rewrite !bool_decide_eq_true in Eskip.
      destruct (IH seen merged) as (m & -> & Hsub & Hnd & Hm).
      exists m. split; [done|]. split; [by apply sublist_cons|].
      split; [done|]. intros q. rewrite Hm. split.
      * intros (pre & post & -> & Hne & Hseen & Hpre).
        exists ((sec_name, kws) :: pre), post. split; [done|].
        split; [done|]. split; [done|].
        intros p [->|Hp]%elem_of_cons; [|by apply Hpre].
        simpl. intros E. rewrite E in Eskip. tauto.
      * intros (pre & post & E & Hne & Hseen & Hpre).
        destruct pre as [|p pre]; simpl in E.
        -- injection E as <- _. simpl in *. tauto.
        -- injection E as <- ->. exists pre, post. split; [done|].
           split; [done|]. split; [done|]. intros p Hp. apply Hpre.
           by right.
    + apply orb_false_iff in Eskip as [Ene Eseen].
      apply bool_decide_eq_false in Ene, Eseen.
      destruct (IH ({[strip sec_name]} ∪ seen) (merged ++ [(sec_name, kws)]))
        as (m & -> & Hsub & Hnd & Hm).
      exists ((sec_name, kws) :: m). rewrite <- app_assoc.
      split; [done|]. split; [by apply sublist_skip|]. split.
      * rewrite fmap_cons. apply NoDup_cons. split; [|done]. simpl.
        intros (q & Eq & Hq)%list_elem_of_fmap.
        apply Hm in Hq as (_ & _ & _ & _ & Hq & _).
        rewrite <- Eq in Hq. apply Hq, elem_of_union_l.
        by apply elem_of_singleton.
      * intros q. rewrite elem_of_cons, Hm. split.
        -- intros [->|(pre & post & -> & Hne & Hseen & Hpre)].
           ++ exists [], rest. split; [done|]. split; [done|].
              split; [done|]. by intros p ?%elem_of_nil.
           ++ apply not_elem_of_union in Hseen as [Hq Hseen].
              apply not_elem_of_singleton in Hq.
              exists ((sec_name, kws) :: pre), post. split; [done|].
              split; [done|]. split; [done|].
              intros p [->|Hp]%elem_of_cons; [|by apply Hpre].
              simpl. congruence.
        -- intros (pre & post & E & Hne & Hseen & Hpre).
           destruct pre as [|p pre]; simpl in E.
           ++ injection E as <- _. by left.
           ++ injection E as <- ->. right. exists pre, post.
              split; [done|]. split; [done|]. split.
              ** apply not_elem_of_union. split; [|done].
                 apply not_elem_of_singleton. intros E.
                 apply (Hpre (sec_name, kws)); [by left|]. by simpl.
              ** intros p Hp. apply Hpre. by right.
Qed.

(** X19.  The sections [get_sections_for_uni] returns for a university are
    taken, in order, from the global sections followed by the sections of
    the university; their stripped names are not empty and differ from one
    another; every non-blank name of the two lists is kept; and where a
    global section and a section of the university have the same stripped
    name, the global one is the one returned. *)
Theorem merged_sections_spec (global_tag : list char)
    (sections_cache : gmap (list char) (list (list char * list (list char))))
    (uni_tag : list char) :
  let global_secs := default [] (sections_cache !! global_tag) in
  let uni_secs := default [] (sections_cache !! strip uni_tag) in
  let merged := get_sections_for_uni strip global_tag sections_cache uni_tag in
  sublist merged (global_secs ++ uni_secs)
  ∧ NoDup ((λ p, strip p.1) <$> merged)
  ∧ Forall (λ p, strip p.1 ≠ []) merged
  ∧ (∀ p, p ∈ global_secs ++ uni_secs → strip p.1 ≠ [] →
       ∃ q, q ∈ merged ∧ strip q.1 = strip p.1)
  ∧ (∀ q p, q ∈ merged → p ∈ global_secs → strip p.1 = strip q.1 →
       q ∈ global_secs).
Proof.
  intros global_secs uni_secs merged. subst merged.
  unfold get_sections_for_uni. fold global_secs uni_secs.
  destruct (merge_loop_spec (global_secs ++ uni_secs) ∅ [])
    as (m & -> & Hsub & Hnd & Hm).
  simpl. split; [done|]. split; [done|]. split; [|split].
  - apply Forall_forall. intros q Hq. by apply Hm in Hq as (_ & _ & _ & ? & _).
  - intros p Hp Hne.
    destruct (first_with_key (λ p, strip p.1) _ p Hp)
      as (pre & q & post & E & Eq & Hpre).
    exists q. split; [|done]. apply Hm. exists pre, post.
    split; [done|]. simpl in Eq. rewrite Eq. split; [done|].
    split; [apply not_elem_of_empty|done].
  - intros q p Hq Hp Epq.
    apply Hm in Hq as (pre & post & E & _ & _ & Hpre).
    apply app_eq_inv in E as [(k & Eg & Ek)|(k & Epre & Eu)].
    + destruct k as [|x k]; simpl in Ek.
      * rewrite app_nil_r in Eg. rewrite Eg in Hp. by destruct (Hpre p Hp).
      * injection Ek as -> _. rewrite Eg. apply elem_of_app. right. by left.
    + destruct (Hpre p); [|done]. rewrite Epre. apply elem_of_app. by left.
Qed.

End Merging.

Section Keywords.
Context {char : Type} `{Countable char}.
Variable lower : list char → list char.
Variable word_char : char → bool.

Lemma flush_elem (cur w : list char) :
  w ∈ flush cur ↔ cur ≠ [] ∧ w = cur.
Proof.
  destruct cur as [|c cur]; simpl.
  - rewrite elem_of_nil. tauto.
  - rewrite list_elem_of_singleton. split; [by intros ->|tauto].
Qed.

Lemma scan_words_spec (cur t w : list char) :
  w ∈ scan_words word_char cur t ↔
  (∃ r post, t = r ++ post ∧ w = cur ++ r ∧ w ≠ []
             ∧ Forall (λ c, word_char c = true) r
             ∧ word_edge word_char (head post))
  ∨ (∃ pre x post, t = pre ++ x :: w ++ post ∧ word_char x = false
                   ∧ is_word word_char w
                   ∧ word_edge word_char (head post)).
Proof.
  revert cur. induction t as [|c t IH]; intros cur; simpl.
  - rewrite flush_elem. split.
    + intros [Hne ->]. left. exists [], []. rewrite !app_nil_r.
      by repeat split.
    + intros [(r & post & E & -> & Hne & _)|(pre & x & post & E & _)].
      * symmetry in E. apply app_eq_nil in E as [-> ->].
        rewrite app_nil_r in *. done.
      * by destruct pre.
  - destruct (word_char c) eqn:Hc.
    + rewrite IH. split.
      * intros [(r & post & -> & -> & Hne & Hr & He)
               |(pre & x & post & -> & Hx & Hw & He)].
        -- left. exists (c :: r), post. rewrite <- app_assoc in *.
           split; [done|]. split; [done|]. split; [done|].
           split; [by constructor|done].
        -- right. by exists (c :: pre), x, post.
      * intros [(r & post & E & -> & Hne & Hr & He)
               |(pre & x & post & E & Hx & Hw & He)].
        -- destruct r as [|c' r]; simpl in E.
           ++ subst post. simpl in He. congruence.
           ++ injection E as <- ->. apply Forall_cons in Hr as [_ Hr].
              left. exists r, post. rewrite <- app_assoc. by repeat split.
        -- destruct pre as [|c' pre]; simpl in E.
           ++ injection E as <- _. congruence.
           ++ injection E as <- ->. right. by exists pre, x, post.
    + rewrite elem_of_app, flush_elem, IH. split.
      * intros [[Hne ->]
               |[(r & post & -> & -> & Hne & Hr & He)
                |(pre & x & post & -> & Hx & Hw & He)]].
        -- left. exists [], (c :: t). rewrite app_nil_r. by repeat split.
        -- right. exists [], c, post. by repeat split.
        -- right. by exists (c :: pre), x, post.
      * intros [(r & post & E & -> & Hne & Hr & He)
               |(pre & x & post & E & Hx & Hw & He)].
        -- destruct r as [|c' r]; simpl in E.
           ++ left. rewrite app_nil_r in *. done.
           ++ injection E as <- _. apply Forall_cons in Hr as [Hr _].
              congruence.
        -- destruct pre as [|c' pre]; simpl in E.
           ++ injection E as <- ->. right. left. exists w, post.
              destruct Hw as [Hne Hw]. by repeat split.
           ++ injection E as <- ->. right. right. by exists pre, x, post.
Qed.

Lemma tokens_are_whole_words (t w : list char) :
  w ∈ scan_words word_char [] t ↔
  ∃ pre post, t = pre ++ w ++ post ∧ is_word word_char w
              ∧ word_edge word_char (last pre)
              ∧ word_edge word_char (head post).
Proof.
  rewrite scan_words_spec. split.
  - intros [(r & post & -> & -> & Hne & Hr & He)
           |(pre & x & post & -> & Hx & Hw & He)].
    + exists [], post. by repeat split.
    + exists (pre ++ [x]), post. rewrite <- app_assoc. simpl.
      split; [done|]. split; [done|]. by rewrite last_snoc.
  - intros (pre & post & -> & Hw & Hl & He).
    destruct pre as [|a pre' _] using rev_ind.
    + left. exists w, post. destruct Hw as [Hne Hw]. by repeat split.
    + right. rewrite last_snoc in Hl. exists pre', a, post.
      rewrite <- app_assoc. done.
Qed.

(** X20.  [contains_keyword] accepts a non-empty text exactly when one of the
    keywords (lower-cased when the filter is case-insensitive) is a word of
    the (lower-cased) text: a non-empty run of characters of [WORD_RE] that
    occurs in it with, on each side, the edge of the text or a character
    outside [WORD_RE].  So a keyword holding another character never
    matches, nor does one that occurs only as part of a longer word. *)
Theorem keyword_is_whole_word (kw_ci : bool) (kw_list : list (list char))
    (text : list char) :
  text ≠ [] →
  let fold x := if kw_ci then lower x else x in
  contains_keyword lower word_char kw_ci kw_list text = true ↔
  ∃ kw pre post,
    kw ∈ kw_list ∧ fold text = pre ++ fold kw ++ post
    ∧ is_word word_char (fold kw)
    ∧ word_edge word_char (last pre)
    ∧ word_edge word_char (head post).
Proof.
  intros Hne fold. subst fold.
  unfold contains_keyword, tokenize_words.
  destruct text as [|c text'] eqn:Et; [done|]. rewrite <- Et. clear Hne.
  rewrite existsb_exists. split.
  - intros (w & Hw%list_elem_of_In & Hk%bool_decide_eq_true).
    apply tokens_are_whole_words in Hw as (pre & post & E & Hw & Hl & He).
    unfold kw_set in Hk. apply elem_of_list_to_set in Hk.
    apply list_elem_of_fmap in Hk as (kw & -> & Hkw).
    by exists kw, pre, post.
  - intros (kw & pre & post & Hkw & E & Hw & Hl & He).
    exists (if kw_ci then lower kw else kw). split.
    + apply list_elem_of_In, tokens_are_whole_words. by exists pre, post.
    + apply bool_decide_eq_true. unfold kw_set.
      apply elem_of_list_to_set, list_elem_of_fmap. by exists kw.
Qed.

End Keywords.

Lemma keyword_is_whole_word_witness :
  let text := [1582; 1589; 1608; 1589; 1610; 46]%N in
  text ≠ []
  ∧ contains_keyword (λ t, t) word_re_class true default_exact_keywords text
    = true.
Proof.
  assert ([1582; 1589; 1608; 1589; 1610; 46]%N ≠ []) as Hne by done.
  split; [exact Hne|].
  apply (keyword_is_whole_word (λ t, t) word_re_class true
           default_exact_keywords _ Hne).
  exists [1582; 1589; 1608; 1589; 1610]%N, [], [46%N].
  split; [by right; right; left|]. split; [done|].
  split; [|done]. split; [done|]. by repeat constructor.
Defined.

(** The cases the header of bot.py lists, with the default keywords: the
    word alone and the word before a full stop are accepted, a word that
    only begins like a keyword and a word that only ends like one are
    not.  No character of these texts has a lower-case form of its own. *)
Example keyword_samples :
  let accepts := contains_keyword (λ t, t) word_re_class true
                   default_exact_keywords in
  accepts [1582; 1589; 1608; 1589; 1610]%N = true
  ∧ accepts [1582; 1589; 1608; 1589; 1610; 46]%N = true
  ∧ accepts [1582; 1589; 1608; 1589; 1575]%N = false
  ∧ accepts [1575; 1604; 1582; 1589; 1608; 1589; 1610]%N = false
  ∧ match_manual_sections (λ t, t) true
      [1575; 1604; 1582; 1589; 1608; 1589; 1610]%N
      [([49%N], [[1582; 1589; 1608]%N]); ([50%N], [[]; [46%N]]);
       ([49%N], [[1610%N]])]
    = [[49%N]].
Proof. vm_compute. repeat split; reflexivity. Qed.

(** Two sections of the same name, one global and one of the university,
    and a blank name: the global one is returned, once.  No name here has
    white space around it. *)
Example merged_sections_sample :
  get_sections_for_uni (λ t, t) [0%N]
    {[ [0%N] := [([49%N], [[1%N]]); ([], [[2%N]])];
       [7%N] := [([49%N], [[3%N]]); ([50%N], [[4%N]])] ]}
    [7%N]
  = [([49%N], [[1%N]]); ([50%N], [[4%N]])].
Proof. vm_compute. reflexivity. Qed.

(** ** The key of a message in the history *)

Lemma colon_splits_once (a a' b b' : string) :
  all_chars (λ c, negb (bool_decide (c = ":"%char))) a = true →
  all_chars (λ c, negb (bool_decide (c = ":"%char))) a' = true →
  a +:+ String ":" b = a' +:+ String ":" b' → a = a' ∧ b = b'.
Proof.
  revert a'. induction a as [|c a IH]; intros a' Ha Ha' E.
  - destruct a' as [|c' a']; [by injection E|].
    rewrite sapp_cons, sapp_nil_l in E. injection E as <- _. done.
  - destruct a' as [|c' a'].
    + rewrite sapp_cons, sapp_nil_l in E. injection E as -> _. done.
    + rewrite !sapp_cons in E. injection E as <- E. simpl in Ha, Ha'.
      apply andb_prop in Ha as [_ Ha]. apply andb_prop in Ha' as [_ Ha'].
      by destruct (IH a' Ha Ha' E) as [-> ->].
Qed.

(** X21.  Two flows whose names hold no colon get the same history key from
    [message_key_for] only when they have the same name and the same
    template file name (no template counting as the name [default]), so the
    cooldown of one such flow never hides a recipient from another; with a
    colon in a flow name two different flows can share a key. *)
Theorem history_keys_distinct (name1 name2 : string)
    (template1 template2 : option string) :
  all_chars (λ c, negb (bool_decide (c = ":"%char))) name1 = true →
  all_chars (λ c, negb (bool_decide (c = ":"%char))) name2 = true →
  message_key_for name1 template1 = message_key_for name2 template2 ↔
  name1 = name2
  ∧ default "default" template1 = default "default" template2.
Proof.
  intros H1 H2. unfold message_key_for. split.
  - intros E. by apply colon_splits_once.
  - by intros [-> ->].
Qed.

Lemma history_keys_distinct_witness :
  all_chars (λ c, negb (bool_decide (c = ":"%char))) "AUTO" = true
  ∧ all_chars (λ c, negb (bool_decide (c = ":"%char))) "cs_group" = true
  ∧ message_key_for "AUTO" None ≠ message_key_for "cs_group" None.
Proof.
  assert (all_chars (λ c, negb (bool_decide (c = ":"%char))) "AUTO" = true)
    as H1 by reflexivity.
  assert (all_chars (λ c, negb (bool_decide (c = ":"%char))) "cs_group" = true)
    as H2 by reflexivity.
  split; [exact H1|]. split; [exact H2|].
  intros E.
  by destruct (proj1 (history_keys_distinct "AUTO" "cs_group" None None H1 H2) E).
Defined.

Example history_key_collision :
  message_key_for "a:b" (Some "c.txt") = message_key_for "a" (Some "b:c.txt")
  ∧ message_key_for "AUTO" None = message_key_for "AUTO" (Some "default").
Proof. vm_compute. split; reflexivity. Qed.
